(** * tmm: Transfer Matrix Method for Bragg gratings

    A shallow embedding of the core of the [tmm] library:
    - [inc/tmm.h]: the layer models ([beta], [homogeneous_layer],
      [index_step]), [matrix_power], [scattering_coefficients_db],
      [to_db] and [from_db];
    - [inc/bragg.h], [src/bragg.cc]: the [Bragg] grating;
    - [inc/cml.h]: the compact material model ([taylor_expansion], [cml]).
    - [inc/ctl.h]: [parse_numeric], over a [strtod] taken as a parameter;
    - [src/tmm.cc]: the options of [main] that build the material models.

    Conventions of the embedding.
    - A C++ [double] is an exact real number ([R]); rounding, infinities and
      NaN are outside the model.  [std::complex<double>] is a pair of reals.
    - A [size_t] is a non-negative [Z]; its width (64 bits, [SIZE_MAX])
      matters in one place, the conversion of the period count from
      [double].
    - Every C++ function is a function into [outcome]: a call returns a
      value, throws an exception, or has undefined behaviour (an unchecked
      [std::vector] access out of range, a [double] converted to a
      [size_t] that cannot hold it).
    - The 2x2 matrices behind the [std::complex<double>**] pointers are
      records of four entries; an output parameter becomes the result.
    - [parse_numeric] has a result type of its own, [parse_result], for
      the [std::runtime_error] it throws, and keeps the infinities and
      NaN that [strtod] can return, since its bounds check tells them
      apart; the option cases of [main] are functions on one material
      slot, applied to the parsed vector.
    - Division by zero and the square root of a negative number have no
      counterpart in [R] to the NaN and infinities of the code: a
      statement about values that depend on such a quotient or root
      carries the hypothesis under which the code computes finite
      values ([wavelength <> 0], [n1 * n2 > 0], [S[0][0] <> 0]). *)

From Stdlib Require Import Ascii String.
From Stdlib Require Import Reals Lra Lia ZArith List Bool Zfloor.
From Equations Require Import Equations.
Import ListNotations.
Local Open Scope R_scope.

(** ** Outcomes of a call *)

(** The error kinds named by the specification (section 7). *)
Inductive exception : Type :=
  | InvalidRefractiveIndexProduct
  | SingularScatteringMatrix
  | InvalidPeriodCount
  | SampleIndexOutOfRange.

Inductive outcome (A : Type) : Type :=
  | Returns (a : A)
  | Throws (e : exception)
  | Undefined.

Arguments Returns {A} a.
Arguments Throws {A} e.
Arguments Undefined {A}.

Definition bind {A B : Type} (c : outcome A) (k : A -> outcome B) : outcome B :=
  match c with
  | Returns a => k a
  | Throws e => Throws e
  | Undefined => Undefined
  end.

Notation "x <- c ;; k" := (bind c (fun x => k))
  (at level 61, c at next level, right associativity).

(** A call that completes normally: it neither throws nor is undefined. *)
Definition returns {A : Type} (c : outcome A) : Prop := exists a, c = Returns a.

(** A call that signals an error. *)
Definition throws {A : Type} (c : outcome A) : Prop := exists e, c = Throws e.

(** ** [std::complex<double>] *)

Record complex : Type := Cx { re : R; im : R }.

Definition C0 : complex := Cx 0 0.
Definition C1 : complex := Cx 1 0.

(** Implicit conversion [double -> std::complex<double>]. *)
Definition of_double (x : R) : complex := Cx x 0.

Definition Cadd (z w : complex) : complex := Cx (re z + re w) (im z + im w).
Definition Copp (z : complex) : complex := Cx (- re z) (- im z).

Definition Cmul (z w : complex) : complex :=
  Cx (re z * re w - im z * im w) (re z * im w + im z * re w).

(** [operator*(std::complex<double>, double)]. *)
Definition Cscale (z : complex) (x : R) : complex := Cx (re z * x) (im z * x).

Definition Cdiv (z w : complex) : complex :=
  let d := re w * re w + im w * im w in
  Cx ((re z * re w + im z * im w) / d) ((im z * re w - re z * im w) / d).

(** [std::exp] on complex numbers. *)
Definition Cexp (z : complex) : complex :=
  Cx (exp (re z) * cos (im z)) (exp (re z) * sin (im z)).

(** [std::abs] on complex numbers. *)
Definition Cabs (z : complex) : R := sqrt (re z * re z + im z * im z).

(** [std::pow(x, n)] for an exponent that holds a non-negative integer
    ([2.0] in [scattering_coefficients_db], the loop index in
    [taylor_expansion]). *)
Definition std_pow (x : R) (n : nat) : R := x ^ n.

(** ** 2x2 complex matrices *)

Record matrix : Type := Mat { m00 : complex; m01 : complex; m10 : complex; m11 : complex }.

(** Modelled from the spec: [damm::identity] belongs to the external
    [damm] library; section 4.1 of the specification: [identity()]
    returns the 2x2 identity. *)
Definition identity : matrix := Mat C1 C0 C0 C1.

(** Modelled from the spec: [damm::zeros], of the same library, sets
    every entry of its argument to zero. *)
Definition zeros : matrix := Mat C0 C0 C0 C0.

(** Modelled from the spec: section 4.1, [multiply(A,B)] is the standard
    matrix product. *)
Definition multiply (A B : matrix) : matrix :=
  Mat (Cadd (Cmul (m00 A) (m00 B)) (Cmul (m01 A) (m10 B)))
      (Cadd (Cmul (m00 A) (m01 B)) (Cmul (m01 A) (m11 B)))
      (Cadd (Cmul (m10 A) (m00 B)) (Cmul (m11 A) (m10 B)))
      (Cadd (Cmul (m10 A) (m01 B)) (Cmul (m11 A) (m11 B))).

(** Modelled from the spec: [damm::multiply(A, B, C, 2, 2, 2)] writes the
    product of [A] and [B] to the output location [C].  Every call in the
    sources is preceded by [damm::zeros] on [C]; the product is added to
    what [C] holds, which on a zeroed [C] is the product itself. *)
Definition damm_multiply (A B C : matrix) : matrix :=
  let P := multiply A B in
  Mat (Cadd (m00 C) (m00 P)) (Cadd (m01 C) (m01 P))
      (Cadd (m10 C) (m10 P)) (Cadd (m11 C) (m11 P)).

(** ** [size_t] *)

Definition SIZE_MAX : Z := (2 ^ 64 - 1)%Z.

(** Truncation toward zero, the value of a floating-integral conversion. *)
Definition truncate (x : R) : Z :=
  if Rle_dec 0 x then Zfloor x else Zceil x.

(** Implicit conversion [double -> size_t]: the fractional part is
    discarded; the behaviour is undefined when the truncated value does
    not fit the destination type. *)
Definition size_t_of_double (x : R) : outcome Z :=
  let t := truncate x in
  if ((0 <=? t) && (t <=? SIZE_MAX))%Z then Returns t else Undefined.

(** ** [tmm.h]: layer models *)

Definition pi : R := PI.

Definition beta (neff wavelength loss : R) : outcome complex :=
  let k0 := 2 * pi / wavelength in
  let alpha := loss / 2 in
  Returns (Cx (k0 * neff) (- alpha)).

Definition homogeneous_layer (wavelength length neff loss : R) : outcome matrix :=
  b <- beta neff wavelength loss ;;
  let phase := Cscale b length in
  Returns (Mat (Cexp (Cmul (Cx 0 1) phase))
               (Cx 0 0)
               (Cx 0 0)
               (Cexp (Cmul (Cx 0 (-1)) phase))).

Definition index_step (n1 n2 : R) : outcome matrix :=
  let a := of_double ((n1 + n2) / (2 * sqrt (n1 * n2))) in
  let b := of_double ((n1 - n2) / (2 * sqrt (n1 * n2))) in
  Returns (Mat a b b a).

(** ** [tmm.h]: [matrix_power] *)

(** The [while (N > 0)] loop of [matrix_power]: one iteration per binary
    digit of [N], which is shifted right until it is 0. *)
Equations? power_loop (N : Z) (result base : matrix) : matrix
  by wf (Z.to_nat N) lt :=
  power_loop N result base with Z_lt_dec 0 N => {
    | left _ =>
        power_loop (Z.shiftr N 1)
          (if negb (Z.land N 1 =? 0)%Z
           then damm_multiply result base zeros
           else result)
          (if (0 <? Z.shiftr N 1)%Z
           then damm_multiply base base zeros
           else base);
    | right _ => result }.
Proof.
  rewrite Z.shiftr_div_pow2 by lia. change (2 ^ 1)%Z with 2%Z.
  apply Z2Nat.inj_lt; try lia.
  - apply Z.div_pos; lia.
  - apply Z.div_lt; lia.
Qed.

Definition matrix_power (T : matrix) (N : Z) : outcome matrix :=
  let result := identity in
  if (N =? 0)%Z then Returns result
  else
    let base := T in
    Returns (power_loop N result base).

(** ** [tmm.h]: [scattering_coefficients_db] *)

Definition scattering_coefficients_db (S : matrix) : outcome (R * R) :=
  let S00 := m00 S in
  let S10 := m10 S in
  let R_ := std_pow (Cabs (Cdiv S10 S00)) 2 in
  let T_ := std_pow (Cabs (Cdiv (of_double 1) S00)) 2 in
  Returns (R_, T_).

(** ** [bragg.h], [bragg.cc]: the Bragg grating *)

Record Bragg : Type := mkBragg { _period : R; _duty_cycle : R; _N : R }.

(** The constructor [Bragg::Bragg]. *)
Definition Bragg_new (period duty_cycle N : R) : outcome Bragg :=
  Returns (mkBragg period duty_cycle N).

Definition transfer_matrix (g : Bragg) (wavelength n1 n2 loss : R) : outcome matrix :=
  let l1 := _period g * _duty_cycle g in
  let l2 := _period g * (1 - _duty_cycle g) in
  T_11 <- homogeneous_layer wavelength l1 n1 loss ;;
  T_12 <- index_step n1 n2 ;;
  T_22 <- homogeneous_layer wavelength l2 n2 loss ;;
  T_21 <- index_step n2 n1 ;;
  let work := damm_multiply T_11 T_12 zeros in
  let T_11 := damm_multiply work T_22 zeros in
  Returns (damm_multiply T_11 T_21 zeros).

Definition scattering_matrix (g : Bragg) (wavelength n1 n2 loss : R) : outcome matrix :=
  Tp <- transfer_matrix g wavelength n1 n2 loss ;;
  N <- size_t_of_double (_N g) ;;
  matrix_power Tp N.

Definition scattering_coefficients (g : Bragg) (wavelength n1 n2 loss : R) : outcome (R * R) :=
  sparams <- scattering_matrix g wavelength n1 n2 loss ;;
  scattering_coefficients_db sparams.

(** ** [cml.h]: the compact material model *)

(** Unchecked element access [v[i]] of a [std::vector<double>]. *)
Definition vector_index (v : list R) (i : nat) : outcome R :=
  match nth_error v i with
  | Some x => Returns x
  | None => Undefined
  end.

(** The reduction operation [O] of [taylor_expansion<O>]. *)
Inductive reduction : Type := std_minus | std_plus.

Definition reduce (O : reduction) (a b : R) : R :=
  match O with
  | std_minus => a - b
  | std_plus => a + b
  end.

Record taylor_expansion (O : reduction) : Type :=
  mkTaylor { x0 : R; coeffs : list R }.

Arguments mkTaylor {O} x0 coeffs.
Arguments x0 {O} t.
Arguments coeffs {O} t.

(** The loop [for (i = 1; i < coeffs.size(); ++i)] of
    [taylor_expansion::operator()]: [cs] holds [coeffs[i], coeffs[i+1], ...]. *)
Fixpoint taylor_loop (O : reduction) (dx : R) (cs : list R) (i : nat) (y : R) : R :=
  match cs with
  | [] => y
  | c :: cs' => taylor_loop O dx cs' (S i) (reduce O y (c * std_pow dx i))
  end.

(** [taylor_expansion<O>::operator()]. *)
Definition taylor_expansion_call {O : reduction} (t : taylor_expansion O) (x : R) : outcome R :=
  let dx := x - x0 t in
  y <- vector_index (coeffs t) 0 ;;
  Returns (taylor_loop O dx (skipn 1 (coeffs t)) 1 y).

(** The aliases [using wavelength_model_t = taylor_expansion<std::minus<>>]
    and [using width_model_t = taylor_expansion<std::plus<>>]. *)
Abbreviation wavelength_model_t := (taylor_expansion std_minus).
Abbreviation width_model_t := (taylor_expansion std_plus).

Record cml : Type := mkCml {
  constant : option R;
  sampled : option (list R);
  wavelength_model : option wavelength_model_t;
  width_model : option width_model_t
}.

(** [cml::operator()], the specification's [evaluate(model, l, w, i)]. *)
Definition cml_call (m : cml) (l w : R) (i : nat) : outcome R :=
  let prop := 0 in
  prop <- match constant m with
          | Some c => Returns c
          | None => Returns prop
          end ;;
  prop <- match sampled m with
          | Some v => vector_index v i
          | None => Returns prop
          end ;;
  prop <- match wavelength_model m with
          | Some f => y <- taylor_expansion_call f l ;; Returns (prop + y)
          | None => Returns prop
          end ;;
  prop <- match width_model m with
          | Some f => y <- taylor_expansion_call f w ;; Returns (prop + y)
          | None => Returns prop
          end ;;
  Returns prop.

(** ** Reference definitions used in the statements *)

(** The squared modulus, [re^2 + im^2]. *)
Definition Cnorm2 (z : complex) : R := re z * re z + im z * im z.

(** [T] multiplied by itself [n] times. *)
Fixpoint matrix_pow_nat (T : matrix) (n : nat) : matrix :=
  match n with
  | O => identity
  | S n' => multiply T (matrix_pow_nat T n')
  end.

(** The sum of [c * dx^i] over the coefficients [cs], the first of which
    has index [i]. *)
Fixpoint taylor_sum (dx : R) (cs : list R) (i : nat) : R :=
  match cs with
  | [] => 0
  | c :: cs' => c * dx ^ i + taylor_sum dx cs' (S i)
  end.

(** The base value of a model: the constant if present, else the sample. *)
Definition cml_base (m : cml) (i : nat) : R :=
  match constant m, sampled m with
  | Some c, _ => c
  | None, Some v => nth i v 0
  | None, None => 0
  end.

(** The value of a dispersion term: element 0 of the coefficients
    combined with the higher-order terms by the reduction. *)
Definition taylor_value {O : reduction} (t : taylor_expansion O) (x : R) : R :=
  reduce O (nth 0 (coeffs t) 0) (taylor_sum (x - x0 t) (skipn 1 (coeffs t)) 1).

Definition term_value {O : reduction} (f : option (taylor_expansion O)) (x : R) : R :=
  match f with
  | Some t => taylor_value t x
  | None => 0
  end.

(** Following the specification's words (section 3): the wavelength term
    is combined with the base as [base - sum over i >= 1 of
    coeffs[i]*(l-l0)^i], and [coeffs[0]] is the additive base only when
    neither a constant nor a sampled base is present; the width term is
    then added. *)
Definition spec_evaluate (m : cml) (l w : R) (i : nat) : R :=
  let base_present :=
    match constant m, sampled m with
    | None, None => false
    | _, _ => true
    end in
  let base := cml_base m i in
  let with_wavelength :=
    match wavelength_model m with
    | Some t =>
        (if base_present then base else nth 0 (coeffs t) 0)
        - taylor_sum (l - x0 t) (skipn 1 (coeffs t)) 1
    | None => base
    end in
  with_wavelength + term_value (width_model m) w.

(** ** Further reference definitions *)

(** Complex conjugate. *)
Definition Cconj (z : complex) : complex := Cx (re z) (- im z).

(** Determinant of a 2x2 matrix. *)
Definition det (M : matrix) : complex :=
  Cadd (Cmul (m00 M) (m11 M)) (Copp (Cmul (m01 M) (m10 M))).

(** [z] multiplied by itself [n] times. *)
Fixpoint Cpow (z : complex) (n : nat) : complex :=
  match n with
  | O => C1
  | S n' => Cmul z (Cpow z n')
  end.

(** The shape of the transfer matrix of a lossless structure: the second
    row is the conjugate of the first, swapped. *)
Definition conjugate_symmetric (M : matrix) : Prop :=
  m10 M = Cconj (m01 M) /\ m11 M = Cconj (m00 M).

(** A diagonal matrix. *)
Definition diag (d0 d1 : complex) : matrix := Mat d0 C0 C0 d1.

(** The exponent [i * beta * length] of the propagator of a homogeneous
    layer, [beta = 2*pi/wavelength * neff - i * loss/2]. *)
Definition propagation_exponent (wavelength length neff loss : R) : complex :=
  Cmul (Cx 0 1) (Cscale (Cx (2 * pi / wavelength * neff) (- (loss / 2))) length).

(** The propagator of a homogeneous layer as a matrix. *)
Definition propagator (wavelength length neff loss : R) : matrix :=
  diag (Cexp (propagation_exponent wavelength length neff loss))
       (Cexp (Copp (propagation_exponent wavelength length neff loss))).

(** The coefficients of a model with the higher-order ones negated. *)
Definition negate_higher_order (cs : list R) : list R :=
  match cs with
  | [] => []
  | c :: cs' => c :: map Ropp cs'
  end.

(** ** [tmm.h]: decibel conversions *)

(** [std::log10]. *)
Definition std_log10 (x : R) : R := ln x / ln 10.

(** [to_db]: [std::max] of two doubles is [Rmax]. *)
Definition to_db (linear : R) : outcome R :=
  Returns (10 * std_log10 (Rmax linear 1e-15)).

Definition from_db (db : R) : outcome R :=
  Returns (ln 10 * db / 10).

(** ** [tmm.cc]: the options that build a material model *)

(** A material slot of the control structure, [ctx->n1], [ctx->n2] or
    [ctx->loss]: a [std::unique_ptr<cml>], empty or owning a model.  The
    functions below are the bodies of the [case]s of [main], applied to
    the vector [v] that [parse_numeric] has filled. *)

(** [--n1], [--n2], [--loss] (cases 1, 2 and 'a'): one value is a
    constant, several are samples, none leaves the slot as it is. *)
Definition option_values (slot : option cml) (v : list R) : option cml :=
  let slot :=
    if (length v =? 1)%nat
    then Some (mkCml (Some (nth 0 v 0)) None None None)
    else slot in
  if (1 <? length v)%nat
  then Some (mkCml None (Some v) None None)
  else slot.

(** [--n1-model], [--n2-model] (cases 3 and 4): appended to a slot that
    has a width model, else the slot is overwritten. *)
Definition option_wavelength_model (slot : option cml) (v : list R) : option cml :=
  if negb (length v =? 0)%nat then
    let f : wavelength_model_t := mkTaylor (nth 0 v 0) (skipn 1 v) in
    match slot with
    | Some m =>
        match width_model m with
        | Some _ => Some (mkCml (constant m) (sampled m) (Some f) (width_model m))
        | None => Some (mkCml None None (Some f) None)
        end
    | None => Some (mkCml None None (Some f) None)
    end
  else slot.

(** [--n1-width-model], [--n2-width-model] (cases 8 and 9): appended to
    a slot that has a wavelength model, else the slot is overwritten. *)
Definition option_width_model (slot : option cml) (v : list R) : option cml :=
  if negb (length v =? 0)%nat then
    let f : width_model_t := mkTaylor (nth 0 v 0) (skipn 1 v) in
    match slot with
    | Some m =>
        match wavelength_model m with
        | Some _ => Some (mkCml (constant m) (sampled m) (wavelength_model m) (Some f))
        | None => Some (mkCml None None None (Some f))
        end
    | None => Some (mkCml None None None (Some f))
    end
  else slot.

(** [--loss-model] (case 5): the slot is always overwritten. *)
Definition option_loss_model (slot : option cml) (v : list R) : option cml :=
  if negb (length v =? 0)%nat then
    let f : wavelength_model_t := mkTaylor (nth 0 v 0) (skipn 1 v) in
    Some (mkCml None None (Some f) None)
  else slot.

(** The options that act on a material slot, each with its parsed
    vector, and the effect on the slot of a command line, the options
    taken in order as the [getopt_long] loop does. *)
Inductive material_option : Type :=
  | Values (v : list R)
  | WavelengthModel (v : list R)
  | WidthModel (v : list R)
  | LossModel (v : list R).

Definition apply_option (slot : option cml) (o : material_option) : option cml :=
  match o with
  | Values v => option_values slot v
  | WavelengthModel v => option_wavelength_model slot v
  | WidthModel v => option_width_model slot v
  | LossModel v => option_loss_model slot v
  end.

Definition run_options (opts : list material_option) : option cml :=
  fold_left apply_option opts None.

(** A model that is a base alone: a constant, or at least two samples. *)
Definition base_only (m : cml) : Prop :=
  wavelength_model m = None /\ width_model m = None
  /\ ((exists c, constant m = Some c /\ sampled m = None)
      \/ (exists v, constant m = None /\ sampled m = Some v
                    /\ (2 <= length v)%nat)).

(** A model that is dispersion terms alone. *)
Definition models_only (m : cml) : Prop :=
  constant m = None /\ sampled m = None
  /\ (wavelength_model m <> None \/ width_model m <> None).

Definition slot_shape (slot : option cml) : Prop :=
  match slot with
  | None => True
  | Some m => base_only m \/ models_only m
  end.

(** ** [ctl.h]: [parse_numeric] *)

(** A C string is a [string]; [EmptyString] is a pointer at the
    terminator.  [advance k s] is the pointer [s + k]. *)
Fixpoint advance (k : nat) (s : string) : string :=
  match k, s with
  | O, _ => s
  | S k', String _ s' => advance k' s'
  | S _, EmptyString => EmptyString
  end.

(** The value [std::strtod] converts a string to: a real number, an
    infinity (the string [inf], or a number out of range) or NaN (the
    string [nan]).  The comparisons of the bounds check tell them
    apart, so they are kept here. *)
Inductive strtod_value : Type :=
  | Finite (x : R)
  | PInf
  | NInf
  | NaN.

(** [val < bound] on doubles, for a finite [bound]: false on NaN. *)
Definition value_lt (val : strtod_value) (bound : R) : bool :=
  match val with
  | Finite x => if Rlt_dec x bound then true else false
  | PInf => false
  | NInf => true
  | NaN => false
  end.

(** [val > bound] on doubles, for a finite [bound]: false on NaN. *)
Definition value_gt (val : strtod_value) (bound : R) : bool :=
  match val with
  | Finite x => if Rgt_dec x bound then true else false
  | PInf => true
  | NInf => false
  | NaN => false
  end.

(** What a call of [parse_numeric<double>] leaves: the vector [result]
    and the returned size, or the [std::runtime_error] it throws. *)
Inductive parse_result : Type :=
  | Parsed (result : list strtod_value) (size : nat)
  | RuntimeError (what : string).

(** [min.has_value() && val < min.value()]. *)
Definition below_minimum (min : option R) (val : strtod_value) : bool :=
  match min with
  | Some lo => value_lt val lo
  | None => false
  end.

(** [max.has_value() && val > max.value()]. *)
Definition above_maximum (max : option R) (val : strtod_value) : bool :=
  match max with
  | Some hi => value_gt val hi
  | None => false
  end.

Section ParseNumeric.

(** [std::strtod] of the C library is a parameter: on the string at
    [current] it gives the value and the number of characters it has
    consumed, so that [end = current + consumed]; nothing consumed is
    [current == end]. *)
Variable strtod : string -> strtod_value * nat.

(** The loop [while] the character at [current] is not the terminator. *)
Equations? parse_loop (str current : string) (min_ max_ : option R)
    (result : list strtod_value) : parse_result
  by wf (String.length current) lt :=
  parse_loop str EmptyString min_ max_ result := Parsed result (List.length result);
  parse_loop str (String c rest) min_ max_ result
    with strtod (String c rest) => {
    | (val, O) => Parsed result (List.length result);
    | (val, S k) =>
        if below_minimum min_ val
        then RuntimeError (str ++ " out of bounds (below minimum)")%string
        else if above_maximum max_ val
        then RuntimeError (str ++ " out of bounds (above maximum)")%string
        else
          parse_loop str
            (match advance k rest with
             | EmptyString => EmptyString
             | String _ end_1 => end_1
             end)
            min_ max_ (result ++ [val]) }.
Proof.
  clear. revert rest. induction k as [|k IH]; intros rest.
  - destruct rest; simpl; lia.
  - destruct rest as [|c' rest]; [simpl; lia|].
    specialize (IH rest). cbn [advance String.length]. lia.
Qed.

Definition parse_numeric (str : string) (min_ max_ : option R) : parse_result :=
  parse_loop str str min_ max_ [].

End ParseNumeric.

(** A value, other than NaN, that lies within the bounds: an infinity
    does only where the bound on its side is absent. *)
Definition within_bounds (min max : option R) (v : strtod_value) : Prop :=
  match v with
  | Finite x =>
      (forall lo, min = Some lo -> lo <= x) /\ (forall hi, max = Some hi -> x <= hi)
  | PInf => max = None
  | NInf => min = None
  | NaN => False
  end.

(** * Properties *)

(** ** Outcomes *)

Section Outcomes.
Context {A B : Type}.

Lemma returns_not_throws (c : outcome A) : returns c -> ~ throws c.
Proof. intros [a ->] [e He]; discriminate. Qed.

Lemma Returns_returns (a : A) : returns (Returns a).
Proof. now exists a. Qed.

Lemma Returns_not_throws (a : A) : ~ throws (Returns a).
Proof. intros [e He]; discriminate. Qed.

Lemma Undefined_not_throws : ~ throws (@Undefined A).
Proof. intros [e He]; discriminate. Qed.

(** A sequence throws only if one of its steps does. *)
Lemma bind_not_throws (c : outcome A) (k : A -> outcome B) :
  ~ throws c -> (forall a, ~ throws (k a)) -> ~ throws (bind c k).
Proof.
  intros Hc Hk [e He]. destruct c as [a|e'|]; cbn [bind] in He.
  - apply (Hk a). now exists e.
  - apply Hc. now exists e'.
  - discriminate.
Qed.

Lemma bind_returns (c : outcome A) (k : A -> outcome B) :
  returns c -> (forall a, returns (k a)) -> returns (bind c k).
Proof. intros [a ->] Hk. apply Hk. Qed.
End Outcomes.

Create HintDb outcome.
#[local] Hint Resolve Returns_returns Returns_not_throws Undefined_not_throws
  bind_not_throws bind_returns : outcome.

(** ** Matrix algebra *)

Lemma complex_eq (z w : complex) : re z = re w -> im z = im w -> z = w.
Proof. destruct z, w; simpl; intros -> ->; reflexivity. Qed.

Ltac complex_ring :=
  apply complex_eq; cbn [re im Cadd Cmul Copp Cscale C0 C1 of_double]; ring.

Ltac matrix_ring :=
  cbv [multiply damm_multiply identity zeros m00 m01 m10 m11];
  f_equal; complex_ring.

Lemma damm_multiply_zeros (A B : matrix) : damm_multiply A B zeros = multiply A B.
Proof. destruct A, B; matrix_ring. Qed.

Lemma multiply_assoc (A B C : matrix) :
  multiply A (multiply B C) = multiply (multiply A B) C.
Proof. destruct A, B, C; matrix_ring. Qed.

Lemma multiply_identity_l (A : matrix) : multiply identity A = A.
Proof. destruct A; matrix_ring. Qed.

Lemma multiply_identity_r (A : matrix) : multiply A identity = A.
Proof. destruct A; matrix_ring. Qed.

Lemma matrix_pow_nat_add (T : matrix) (n m : nat) :
  matrix_pow_nat T (n + m) = multiply (matrix_pow_nat T n) (matrix_pow_nat T m).
Proof.
  induction n as [|n IH]; simpl.
  - now rewrite multiply_identity_l.
  - now rewrite IH, multiply_assoc.
Qed.

Lemma matrix_pow_nat_square (T : matrix) (n : nat) :
  matrix_pow_nat (multiply T T) n = matrix_pow_nat T (2 * n).
Proof.
  induction n as [|n IH]; [reflexivity|].
  replace (2 * S n)%nat with (S (S (2 * n))) by lia.
  simpl matrix_pow_nat at 1. rewrite IH. simpl. now rewrite multiply_assoc.
Qed.

(** The loop multiplies [result] by [base] to the power [N]. *)
Lemma power_loop_spec (N : Z) (result base : matrix) :
  (0 <= N)%Z ->
  power_loop N result base
  = multiply result (matrix_pow_nat base (Z.to_nat N)).
Proof.
  intros HN. funelim (power_loop N result base).
  2:{ replace N with 0%Z by lia. simpl. now rewrite multiply_identity_r. }
  clear Heq Heqcall.
  match goal with
  | IH : (0 <= Z.shiftr N 1)%Z -> _ |- _ => rename IH into IHloop
  end.
  revert IHloop.
  rewrite Z.shiftr_div_pow2 by lia. change (2 ^ 1)%Z with 2%Z.
  replace (Z.land N 1) with (N mod 2)%Z
    by (change 1%Z with (Z.ones 1); now rewrite Z.land_ones by lia).
  intros IHloop. rewrite IHloop by (apply Z.div_pos; lia).
  pose proof (Z.div_mod N 2 ltac:(lia)) as Hdm.
  pose proof (Z.mod_pos_bound N 2 ltac:(lia)) as Hmod.
  rewrite !damm_multiply_zeros.
  destruct (Z.eqb_spec (N mod 2) 0) as [Hbit|Hbit]; cbn [negb];
    destruct (Z.ltb_spec 0 (N / 2)) as [Hq0|Hq0].
  - rewrite matrix_pow_nat_square. f_equal. f_equal. lia.
  - lia.
  - rewrite matrix_pow_nat_square, <- multiply_assoc.
    replace (Z.to_nat N) with (S (2 * Z.to_nat (N / 2))) by lia.
    reflexivity.
  - replace (N / 2)%Z with 0%Z by lia.
    replace N with 1%Z by lia.
    simpl. now rewrite !multiply_identity_r.
Qed.

Lemma matrix_power_spec (T : matrix) (N : Z) :
  (0 <= N)%Z ->
  matrix_power T N = Returns (matrix_pow_nat T (Z.to_nat N)).
Proof.
  intros HN. unfold matrix_power.
  destruct (Z.eqb_spec N 0) as [->|Hne]; [reflexivity|].
  rewrite power_loop_spec by exact HN.
  now rewrite multiply_identity_l.
Qed.

Lemma matrix_power_returns (T : matrix) (N : Z) : returns (matrix_power T N).
Proof. unfold matrix_power. destruct (N =? 0)%Z; auto with outcome. Qed.

Lemma matrix_power_1 (T : matrix) : matrix_power T 1 = Returns T.
Proof.
  rewrite matrix_power_spec by lia. simpl. now rewrite multiply_identity_r.
Qed.

(** The loop on a concrete count: [[1 1; 0 1]] to the power 5. *)
Example matrix_power_5 :
  matrix_power (Mat C1 C1 C0 C1) 5 = Returns (Mat C1 (Cx 5 0) C0 C1).
Proof.
  unfold matrix_power; cbn [Z.eqb].
  repeat (rewrite power_loop_equation_1; cbn).
  rewrite !damm_multiply_zeros.
  f_equal. matrix_ring.
Qed.

(** C1. Composition law of [matrix_power]: for every matrix [T] and all
    non-negative integers [a] and [b], the power at [a + b] is the
    product of the powers at [a] and at [b]; and the power at 0 is the
    identity for every [T], the all-zero matrix included. *)
Theorem matrix_power_composition (T : matrix) (a b : Z) :
  (0 <= a)%Z -> (0 <= b)%Z ->
  (exists Pa Pb,
      matrix_power T a = Returns Pa /\
      matrix_power T b = Returns Pb /\
      matrix_power T (a + b) = Returns (multiply Pa Pb))
  /\ matrix_power T 0 = Returns identity
  /\ matrix_power zeros 0 = Returns identity.
Proof.
  intros Ha Hb. split; [|split; reflexivity].
  exists (matrix_pow_nat T (Z.to_nat a)), (matrix_pow_nat T (Z.to_nat b)).
  rewrite !matrix_power_spec by lia.
  repeat split. f_equal.
  rewrite Z2Nat.inj_add by lia. apply matrix_pow_nat_add.
Qed.

Lemma matrix_power_composition_witness :
  (exists Pa Pb,
      matrix_power (Mat (Cx 1 2) (Cx 0 1) (Cx 3 0) (Cx 1 1)) 2 = Returns Pa /\
      matrix_power (Mat (Cx 1 2) (Cx 0 1) (Cx 3 0) (Cx 1 1)) 1 = Returns Pb /\
      matrix_power (Mat (Cx 1 2) (Cx 0 1) (Cx 3 0) (Cx 1 1)) (2 + 1)
      = Returns (multiply Pa Pb))
  /\ matrix_power (Mat (Cx 1 2) (Cx 0 1) (Cx 3 0) (Cx 1 1)) 0 = Returns identity
  /\ matrix_power zeros 0 = Returns identity.
Proof.
  apply (matrix_power_composition (Mat (Cx 1 2) (Cx 0 1) (Cx 3 0) (Cx 1 1)) 2 1);
    lia.
Defined.

(** ** Complex modulus *)

Lemma Cabs_C0 : Cabs C0 = 0.
Proof.
  unfold Cabs, C0; cbn [re im].
  replace (0 * 0 + 0 * 0) with 0 by ring. apply sqrt_0.
Qed.

Lemma Cabs_C1 : Cabs C1 = 1.
Proof.
  unfold Cabs, C1; cbn [re im].
  replace (1 * 1 + 0 * 0) with 1 by ring. apply sqrt_1.
Qed.

Lemma Cdiv_C1_r (z : complex) : Cdiv z C1 = z.
Proof. destruct z. apply complex_eq; unfold Cdiv; simpl; field. Qed.

Lemma C1_neq_C0 : C1 <> C0.
Proof. intros H. apply (f_equal re) in H. simpl in H. lra. Qed.

Lemma Cnorm2_nonneg (z : complex) : 0 <= Cnorm2 z.
Proof. unfold Cnorm2. nra. Qed.

Lemma Cnorm2_pos (z : complex) : z <> C0 -> 0 < Cnorm2 z.
Proof.
  intros Hz. destruct z as [a b]. unfold Cnorm2; simpl.
  destruct (Req_dec a 0) as [Ha|Ha]; [|nra].
  destruct (Req_dec b 0) as [Hb|Hb]; [|nra].
  subst. now elim Hz.
Qed.

Lemma Cabs_sqr (z : complex) : Cabs z ^ 2 = Cnorm2 z.
Proof.
  unfold Cabs. fold (Cnorm2 z). simpl. rewrite Rmult_1_r.
  apply sqrt_sqrt, Cnorm2_nonneg.
Qed.

Lemma Cnorm2_Cdiv (z w : complex) :
  w <> C0 -> Cnorm2 (Cdiv z w) = Cnorm2 z / Cnorm2 w.
Proof.
  intros Hw. pose proof (Cnorm2_pos w Hw) as Hpos.
  destruct z as [a b], w as [c d]. unfold Cnorm2, Cdiv in *; simpl in *.
  field. lra.
Qed.

Lemma Cabs_Cexp (z : complex) : Cabs (Cexp z) = exp (re z).
Proof.
  unfold Cabs, Cexp; cbn [re im].
  replace (exp (re z) * cos (im z) * (exp (re z) * cos (im z))
           + exp (re z) * sin (im z) * (exp (re z) * sin (im z)))
    with (Rsqr (exp (re z)) * (Rsqr (sin (im z)) + Rsqr (cos (im z))))
    by (unfold Rsqr; ring).
  rewrite sin2_cos2, Rmult_1_r.
  apply sqrt_Rsqr. left. apply exp_pos.
Qed.

Lemma Cmul_minus_i (z : complex) : Cmul (Cx 0 (-1)) z = Copp (Cmul (Cx 0 1) z).
Proof. complex_ring. Qed.

(** ** Layer models *)

(** C5. For a wavelength [> 0], [homogeneous_layer] returns the diagonal
    matrix [diag(e^{i*beta*length}, e^{-i*beta*length})] with
    [beta = (2*pi/wavelength)*neff - i*(loss/2)]; both off-diagonal
    entries are zero, and with [loss = 0] both diagonal entries have
    modulus 1. *)
Theorem homogeneous_layer_diagonal (wavelength length neff loss : R) :
  wavelength > 0 ->
  let b := Cx (2 * PI / wavelength * neff) (- (loss / 2)) in
  let P := Mat (Cexp (Cmul (Cx 0 1) (Cscale b length)))
               C0
               C0
               (Cexp (Copp (Cmul (Cx 0 1) (Cscale b length)))) in
  homogeneous_layer wavelength length neff loss = Returns P
  /\ (loss = 0 -> Cabs (m00 P) = 1 /\ Cabs (m11 P) = 1).
Proof.
  intros Hpos b P. split.
  - unfold homogeneous_layer, beta, pi; cbn [bind].
    fold b. now rewrite Cmul_minus_i.
  - intros ->. subst P b; cbn [m00 m11].
    rewrite !Cabs_Cexp. cbn [re im Cmul Cscale Copp].
    split; rewrite <- exp_0; f_equal; field; lra.
Qed.

Lemma homogeneous_layer_diagonal_witness :
  let b := Cx (2 * PI / 2 * 3) (- (0 / 2)) in
  let P := Mat (Cexp (Cmul (Cx 0 1) (Cscale b 5)))
               C0
               C0
               (Cexp (Copp (Cmul (Cx 0 1) (Cscale b 5)))) in
  homogeneous_layer 2 5 3 0 = Returns P
  /\ (0 = 0 -> Cabs (m00 P) = 1 /\ Cabs (m11 P) = 1).
Proof. apply (homogeneous_layer_diagonal 2 5 3 0). lra. Defined.

(** Equal indices on both sides of the step: no scattering. *)
Lemma index_step_same (n : R) : n > 0 -> index_step n n = Returns identity.
Proof.
  intros Hn. unfold index_step, identity, of_double, C1, C0.
  rewrite sqrt_square by lra.
  do 2 f_equal; apply complex_eq; cbn [re im]; try reflexivity; field; lra.
Qed.

(** Swapping the indices keeps the diagonal entry and negates the
    off-diagonal one. *)
Lemma index_step_swap (n1 n2 : R) (T T' : matrix) :
  index_step n1 n2 = Returns T ->
  index_step n2 n1 = Returns T' ->
  m00 T' = m00 T /\ m01 T' = Copp (m01 T) /\ m10 T' = Copp (m10 T)
  /\ m11 T' = m11 T.
Proof.
  unfold index_step. intros HT HT'.
  injection HT as <-. injection HT' as <-. cbn [m00 m01 m10 m11].
  rewrite (Rmult_comm n2 n1).
  repeat split; apply complex_eq; cbn [re im of_double Copp]; unfold Rdiv; ring.
Qed.

(** C6 fails as stated: for [n1 = 1], [n2 = -1] the product is not
    positive, yet [index_step] signals no error and returns a matrix. *)
Lemma index_step_no_error_counterexample :
  1 * -1 <= 0
  /\ index_step 1 (-1) <> Throws InvalidRefractiveIndexProduct
  /\ returns (index_step 1 (-1)).
Proof.
  split; [lra|]. split; [discriminate|]. unfold index_step; auto with outcome.
Qed.

(** C6, amended. [index_step] signals no error for any [n1], [n2],
    whatever the sign of their product.  When [n1*n2 > 0] it returns
    the symmetric matrix with [a = (n1+n2)/(2*sqrt(n1*n2))] on the
    diagonal and [b = (n1-n2)/(2*sqrt(n1*n2))] off the diagonal; the
    divisor is positive and the entries satisfy [a*a - b*b = 1]. *)
Theorem index_step_never_throws (n1 n2 : R) :
  ~ throws (index_step n1 n2)
  /\ (n1 * n2 > 0 ->
      index_step n1 n2
      = Returns (Mat (of_double ((n1 + n2) / (2 * sqrt (n1 * n2))))
                     (of_double ((n1 - n2) / (2 * sqrt (n1 * n2))))
                     (of_double ((n1 - n2) / (2 * sqrt (n1 * n2))))
                     (of_double ((n1 + n2) / (2 * sqrt (n1 * n2)))))
      /\ 0 < 2 * sqrt (n1 * n2)
      /\ forall T, index_step n1 n2 = Returns T ->
           re (m00 T) * re (m11 T) - re (m01 T) * re (m10 T) = 1).
Proof.
  split; [unfold index_step; auto with outcome|].
  intros Hpos.
  split; [reflexivity|].
  pose proof (sqrt_lt_R0 _ Hpos) as Hs.
  pose proof (sqrt_sqrt (n1 * n2) ltac:(lra)) as Hss.
  split; [lra|].
  intros T HT. injection HT as <-. cbn [m00 m01 m10 m11 re of_double].
  set (s := sqrt (n1 * n2)) in *.
  replace ((n1 + n2) / (2 * s) * ((n1 + n2) / (2 * s))
           - (n1 - n2) / (2 * s) * ((n1 - n2) / (2 * s)))
    with (n1 * n2 / (s * s)) by (field; lra).
  rewrite Hss. unfold Rdiv. apply Rinv_r. lra.
Qed.

Lemma index_step_never_throws_witness :
  index_step 2 3
  = Returns (Mat (of_double ((2 + 3) / (2 * sqrt (2 * 3))))
                 (of_double ((2 - 3) / (2 * sqrt (2 * 3))))
                 (of_double ((2 - 3) / (2 * sqrt (2 * 3))))
                 (of_double ((2 + 3) / (2 * sqrt (2 * 3)))))
  /\ 0 < 2 * sqrt (2 * 3)
  /\ forall T, index_step 2 3 = Returns T ->
       re (m00 T) * re (m11 T) - re (m01 T) * re (m10 T) = 1.
Proof.
  apply (proj2 (index_step_never_throws 2 3)). lra.
Defined.

(** ** Scattering-coefficient extraction *)

Lemma scattering_coefficients_db_identity :
  scattering_coefficients_db identity = Returns (0, 1).
Proof.
  unfold scattering_coefficients_db, identity, std_pow; cbn [m00 m10].
  change (of_double 1) with C1. rewrite !Cdiv_C1_r, Cabs_C0, Cabs_C1.
  replace (0 ^ 2) with 0 by ring. replace (1 ^ 2) with 1 by ring.
  reflexivity.
Qed.

(** C7 fails as stated: a scattering matrix with [S[0][0] = 0] is
    accepted, no error is signalled and a pair is returned. *)
Lemma singular_scattering_counterexample :
  m00 (Mat C0 C1 C1 C0) = C0
  /\ scattering_coefficients_db (Mat C0 C1 C1 C0) <> Throws SingularScatteringMatrix
  /\ returns (scattering_coefficients_db (Mat C0 C1 C1 C0)).
Proof.
  split; [reflexivity|]. split; [discriminate|].
  unfold scattering_coefficients_db; auto with outcome.
Qed.

(** C7, amended. Coefficient extraction signals no error for any
    scattering matrix [S], whether [S[0][0]] is zero or not.  When
    [S[0][0] <> 0] the divisor [|S[0][0]|^2] is positive and the pair
    of [|S[1][0]/S[0][0]|^2] and [|1/S[0][0]|^2] is returned. *)
Theorem scattering_coefficients_db_never_throws (S : matrix) :
  ~ throws (scattering_coefficients_db S)
  /\ (m00 S <> C0 ->
      0 < Cnorm2 (m00 S)
      /\ scattering_coefficients_db S
         = Returns (Cabs (Cdiv (m10 S) (m00 S)) ^ 2,
                    Cabs (Cdiv (of_double 1) (m00 S)) ^ 2)).
Proof.
  split; [unfold scattering_coefficients_db; auto with outcome|].
  intros Hne. split; [now apply Cnorm2_pos|reflexivity].
Qed.

Lemma scattering_coefficients_db_never_throws_witness :
  0 < Cnorm2 (m00 identity)
  /\ scattering_coefficients_db identity
     = Returns (Cabs (Cdiv (m10 identity) (m00 identity)) ^ 2,
                Cabs (Cdiv (of_double 1) (m00 identity)) ^ 2).
Proof.
  apply (proj2 (scattering_coefficients_db_never_throws identity)).
  exact C1_neq_C0.
Defined.

(** ** Conversion of the period count *)

Lemma truncate_IZR (n : Z) : truncate (IZR n) = n.
Proof.
  unfold truncate. destruct (Rle_dec 0 (IZR n)).
  - apply ZfloorZ.
  - unfold Zceil. now rewrite ZfloorNZ, Z.opp_involutive.
Qed.

Lemma truncate_floor (n : Z) (x : R) :
  (0 <= n)%Z -> IZR n <= x < IZR n + 1 -> truncate x = n.
Proof.
  intros Hn Hx. unfold truncate.
  destruct (Rle_dec 0 x) as [_|Hneg].
  - now apply Zfloor_eq.
  - exfalso. apply Hneg. apply IZR_le in Hn. lra.
Qed.

Lemma size_t_of_double_floor (n : Z) (x : R) :
  (0 <= n <= SIZE_MAX)%Z -> IZR n <= x < IZR n + 1 ->
  size_t_of_double x = Returns n.
Proof.
  intros [H0 H1] Hx. unfold size_t_of_double.
  rewrite (truncate_floor n x) by assumption.
  apply Z.leb_le in H0, H1. now rewrite H0, H1.
Qed.

Lemma size_t_of_double_IZR (n : Z) :
  (0 <= n <= SIZE_MAX)%Z -> size_t_of_double (IZR n) = Returns n.
Proof. intros Hn. apply size_t_of_double_floor; [exact Hn|lra]. Qed.

Lemma size_t_of_double_not_throws (x : R) : ~ throws (size_t_of_double x).
Proof.
  unfold size_t_of_double.
  destruct (_ && _)%bool; auto with outcome.
Qed.

(** ** Bragg grating *)

Section BraggEvaluation.
Variable g : Bragg.
Variables wavelength n1 n2 loss : R.

Lemma transfer_matrix_returns :
  returns (transfer_matrix g wavelength n1 n2 loss).
Proof.
  unfold transfer_matrix, homogeneous_layer, beta, index_step; cbn [bind].
  auto with outcome.
Qed.

Lemma scattering_matrix_unfold :
  exists Tp,
    transfer_matrix g wavelength n1 n2 loss = Returns Tp
    /\ scattering_matrix g wavelength n1 n2 loss
       = (N <- size_t_of_double (_N g) ;; matrix_power Tp N).
Proof.
  destruct transfer_matrix_returns as [Tp HTp].
  exists Tp. split; [exact HTp|].
  unfold scattering_matrix. now rewrite HTp.
Qed.

Lemma scattering_matrix_not_throws :
  ~ throws (scattering_matrix g wavelength n1 n2 loss).
Proof.
  destruct scattering_matrix_unfold as (Tp & _ & ->).
  apply bind_not_throws; [apply size_t_of_double_not_throws|].
  intros N. apply returns_not_throws, matrix_power_returns.
Qed.

Lemma scattering_coefficients_not_throws :
  ~ throws (scattering_coefficients g wavelength n1 n2 loss).
Proof.
  unfold scattering_coefficients.
  apply bind_not_throws; [apply scattering_matrix_not_throws|].
  intros S. unfold scattering_coefficients_db; auto with outcome.
Qed.

(** When the count converts to [n], the scattering matrix is the
    [n]-th power of the single-period matrix. *)
Lemma scattering_matrix_power (n : Z) :
  size_t_of_double (_N g) = Returns n ->
  exists Tp,
    transfer_matrix g wavelength n1 n2 loss = Returns Tp
    /\ scattering_matrix g wavelength n1 n2 loss
       = Returns (matrix_pow_nat Tp (Z.to_nat n)).
Proof.
  intros Hconv.
  destruct scattering_matrix_unfold as (Tp & HTp & ->).
  exists Tp. split; [exact HTp|].
  rewrite Hconv; cbn [bind]. apply matrix_power_spec.
  unfold size_t_of_double in Hconv.
  destruct (_ && _)%bool eqn:Hrange; [|discriminate].
  injection Hconv as <-. apply andb_true_iff in Hrange. lia.
Qed.

(** C8, amended. Constructing and evaluating a grating raise no error
    for any period count [N].  [N] is converted to a [size_t] by
    discarding its fractional part: whenever [n <= N < n + 1] for an
    integer [n] in [0 .. SIZE_MAX] (an integer-valued [N = n], or a
    fractional [N] above it), the scattering matrix is the
    single-period transfer matrix raised to the power [n], and the
    coefficients are returned. *)
Theorem scattering_matrix_period_count :
  Bragg_new (_period g) (_duty_cycle g) (_N g) = Returns g
  /\ ~ throws (scattering_matrix g wavelength n1 n2 loss)
  /\ ~ throws (scattering_coefficients g wavelength n1 n2 loss)
  /\ (forall n : Z,
        (0 <= n <= SIZE_MAX)%Z -> IZR n <= _N g < IZR n + 1 ->
        exists Tp,
          transfer_matrix g wavelength n1 n2 loss = Returns Tp
          /\ scattering_matrix g wavelength n1 n2 loss
             = Returns (matrix_pow_nat Tp (Z.to_nat n))
          /\ returns (scattering_coefficients g wavelength n1 n2 loss)).
Proof.
  split; [now destruct g|].
  split; [apply scattering_matrix_not_throws|].
  split; [apply scattering_coefficients_not_throws|].
  intros n Hn HN.
  destruct (scattering_matrix_power n) as (Tp & HTp & HS).
  { now apply size_t_of_double_floor. }
  exists Tp. repeat split; [exact HTp|exact HS|].
  unfold scattering_coefficients. rewrite HS; cbn [bind].
  unfold scattering_coefficients_db; auto with outcome.
Qed.

(** C3. When the scattering matrix [S] has [S[0][0] <> 0],
    [scattering_coefficients] returns exactly two outputs, the pair
    [(R, T)] with [R = |S[1][0]/S[0][0]|^2] and [T = |1/S[0][0]|^2]
    (that is [|S[1][0]|^2 / |S[0][0]|^2] and [1 / |S[0][0]|^2]); no
    phase is part of the result. *)
Theorem scattering_coefficients_two_outputs (S : matrix) :
  scattering_matrix g wavelength n1 n2 loss = Returns S ->
  m00 S <> C0 ->
  scattering_coefficients g wavelength n1 n2 loss
  = Returns (Cabs (Cdiv (m10 S) (m00 S)) ^ 2,
             Cabs (Cdiv (of_double 1) (m00 S)) ^ 2)
  /\ Cabs (Cdiv (m10 S) (m00 S)) ^ 2 = Cnorm2 (m10 S) / Cnorm2 (m00 S)
  /\ Cabs (Cdiv (of_double 1) (m00 S)) ^ 2 = 1 / Cnorm2 (m00 S).
Proof.
  intros HS H00. unfold scattering_coefficients. rewrite HS. cbn [bind].
  split; [reflexivity|].
  rewrite !Cabs_sqr, !Cnorm2_Cdiv by assumption.
  split; [reflexivity|].
  f_equal. unfold Cnorm2, of_double; simpl. ring.
Qed.
End BraggEvaluation.

Lemma scattering_matrix_zero_periods (period duty_cycle wavelength n1 n2 loss : R) :
  scattering_matrix (mkBragg period duty_cycle 0) wavelength n1 n2 loss
  = Returns identity.
Proof.
  destruct (scattering_matrix_power (mkBragg period duty_cycle 0)
              wavelength n1 n2 loss 0) as (Tp & _ & ->); [|reflexivity].
  apply (size_t_of_double_IZR 0). unfold SIZE_MAX; lia.
Qed.

(** C2. A grating built with [N = 0], of any period and duty cycle, has
    identity scattering at every wavelength, indices and loss with
    [n1 * n2 > 0]: the reported reflection is 0 and the transmission 1. *)
Theorem scattering_coefficients_zero_periods
    (period duty_cycle wavelength n1 n2 loss : R) :
  n1 * n2 > 0 ->
  (g <- Bragg_new period duty_cycle 0 ;;
   scattering_coefficients g wavelength n1 n2 loss) = Returns (0, 1).
Proof.
  intros _.
  unfold Bragg_new; cbn [bind].
  unfold scattering_coefficients.
  rewrite scattering_matrix_zero_periods; cbn [bind].
  apply scattering_coefficients_db_identity.
Qed.

Lemma scattering_coefficients_zero_periods_witness :
  22 / 10 * 2 > 0 /\
  (g <- Bragg_new (1 / 2) (1 / 2) 0 ;;
   scattering_coefficients g (155 / 100) (22 / 10) 2 0) = Returns (0, 1).
Proof.
  split; [lra|].
  apply (scattering_coefficients_zero_periods (1 / 2) (1 / 2) (155 / 100) (22 / 10) 2 0).
  lra.
Defined.

Lemma scattering_coefficients_two_outputs_witness :
  scattering_coefficients (mkBragg 1 (1 / 2) 0) 1 2 2 0
  = Returns (Cabs (Cdiv C0 C1) ^ 2, Cabs (Cdiv (of_double 1) C1) ^ 2)
  /\ Cabs (Cdiv C0 C1) ^ 2 = Cnorm2 C0 / Cnorm2 C1
  /\ Cabs (Cdiv (of_double 1) C1) ^ 2 = 1 / Cnorm2 C1.
Proof.
  apply (scattering_coefficients_two_outputs (mkBragg 1 (1 / 2) 0) 1 2 2 0 identity).
  - apply scattering_matrix_zero_periods.
  - exact C1_neq_C0.
Defined.

(** C8 fails as stated: a grating with the fractional count [N = 5/2] is
    evaluated as the grating with [N = 2], and one with the negative
    count [N = -1] has undefined behaviour; neither raises an error. *)
Lemma invalid_period_count_counterexample :
  scattering_matrix (mkBragg 1 (1 / 2) (5 / 2)) 1 2 2 0
  = scattering_matrix (mkBragg 1 (1 / 2) 2) 1 2 2 0
  /\ returns (scattering_matrix (mkBragg 1 (1 / 2) (5 / 2)) 1 2 2 0)
  /\ returns (scattering_coefficients (mkBragg 1 (1 / 2) (5 / 2)) 1 2 2 0)
  /\ scattering_matrix (mkBragg 1 (1 / 2) (5 / 2)) 1 2 2 0
     <> Throws InvalidPeriodCount
  /\ scattering_matrix (mkBragg 1 (1 / 2) (-1)) 1 2 2 0 = Undefined.
Proof.
  assert (H52 : size_t_of_double (5 / 2) = Returns 2%Z)
    by (apply size_t_of_double_floor; [unfold SIZE_MAX; lia | lra]).
  assert (H2 : size_t_of_double 2 = Returns 2%Z)
    by (apply (size_t_of_double_IZR 2); unfold SIZE_MAX; lia).
  assert (Hm1 : size_t_of_double (-1) = Undefined).
  { unfold size_t_of_double. now rewrite (truncate_IZR (-1)). }
  destruct (scattering_matrix_power (mkBragg 1 (1 / 2) (5 / 2)) 1 2 2 0 2 H52)
    as (Tp & HTp & HS).
  destruct (scattering_matrix_power (mkBragg 1 (1 / 2) 2) 1 2 2 0 2 H2)
    as (Tp' & HTp' & HS').
  change (transfer_matrix (mkBragg 1 (1 / 2) 2) 1 2 2 0)
    with (transfer_matrix (mkBragg 1 (1 / 2) (5 / 2)) 1 2 2 0) in HTp'.
  assert (Tp' = Tp) by congruence. subst Tp'.
  split; [congruence|].
  split; [rewrite HS; auto with outcome|].
  split.
  { unfold scattering_coefficients. rewrite HS; cbn [bind].
    unfold scattering_coefficients_db; auto with outcome. }
  split; [rewrite HS; discriminate|].
  destruct (scattering_matrix_unfold (mkBragg 1 (1 / 2) (-1)) 1 2 2 0)
    as (T & _ & ->).
  cbn [_N]. now rewrite Hm1.
Qed.

Lemma scattering_matrix_period_count_witness :
  exists Tp,
    transfer_matrix (mkBragg 1 (1 / 2) (5 / 2)) 1 2 2 0 = Returns Tp
    /\ scattering_matrix (mkBragg 1 (1 / 2) (5 / 2)) 1 2 2 0
       = Returns (matrix_pow_nat Tp (Z.to_nat 2))
    /\ returns (scattering_coefficients (mkBragg 1 (1 / 2) (5 / 2)) 1 2 2 0).
Proof.
  apply (proj2 (proj2 (proj2 (scattering_matrix_period_count
                                (mkBragg 1 (1 / 2) (5 / 2)) 1 2 2 0))) 2%Z).
  - unfold SIZE_MAX; lia.
  - cbn [_N]. lra.
Defined.

(** ** Compact material model *)

Lemma vector_index_in_range (v : list R) (i : nat) :
  (i < length v)%nat -> vector_index v i = Returns (nth i v 0).
Proof.
  intros Hi. unfold vector_index.
  now rewrite (nth_error_nth' v 0 Hi).
Qed.

Lemma vector_index_out_of_range (v : list R) (i : nat) :
  (length v <= i)%nat -> vector_index v i = Undefined.
Proof.
  intros Hi. unfold vector_index.
  apply nth_error_None in Hi. now rewrite Hi.
Qed.

Lemma vector_index_not_throws (v : list R) (i : nat) : ~ throws (vector_index v i).
Proof.
  unfold vector_index. destruct (nth_error v i); auto with outcome.
Qed.

(** C9 fails as stated: a model sampled with the one-element sequence
    [1] and evaluated at index 3, beyond its length, raises no error;
    the unchecked access has undefined behaviour. *)
Lemma sample_index_counterexample :
  (length [1] <= 3)%nat
  /\ cml_call (mkCml None (Some [1]) None None) 0 0 3 = Undefined
  /\ cml_call (mkCml None (Some [1]) None None) 0 0 3
     <> Throws SampleIndexOutOfRange.
Proof.
  split; [simpl; lia|]. split; [reflexivity|discriminate].
Qed.

(** C9, amended. For a sampled-only model: with the index within the
    sequence the evaluation returns [samples[i]]; with the index beyond
    it no error is raised, the access is unchecked and the behaviour
    undefined. *)
Theorem cml_call_sampled_only (samples : list R) (l w : R) (i : nat) :
  ((i < length samples)%nat ->
   cml_call (mkCml None (Some samples) None None) l w i
   = Returns (nth i samples 0))
  /\ ((length samples <= i)%nat ->
      cml_call (mkCml None (Some samples) None None) l w i = Undefined)
  /\ ~ throws (cml_call (mkCml None (Some samples) None None) l w i).
Proof.
  unfold cml_call;
    cbn [constant sampled wavelength_model width_model bind].
  repeat split.
  - intros Hi. now rewrite vector_index_in_range.
  - intros Hi. now rewrite vector_index_out_of_range.
  - apply bind_not_throws; [apply vector_index_not_throws|].
    intros x; cbn [bind]. auto with outcome.
Qed.

Lemma cml_call_sampled_only_witness :
  cml_call (mkCml None (Some [3; 5; 7]) None None) 0 0 1 = Returns 5.
Proof.
  apply (proj1 (cml_call_sampled_only [3; 5; 7] 0 0 1)).
  simpl; lia.
Defined.

(** C10. A model in which none of the four representations is present
    evaluates to 0 at every wavelength, width and sample index. *)
Theorem cml_call_empty (m : cml) (l w : R) (i : nat) :
  constant m = None ->
  sampled m = None ->
  wavelength_model m = None ->
  width_model m = None ->
  cml_call m l w i = Returns 0.
Proof.
  intros Hc Hs Hwl Hwd. unfold cml_call.
  rewrite Hc, Hs, Hwl, Hwd. reflexivity.
Qed.

Lemma cml_call_empty_witness :
  cml_call (mkCml None None None None) (155 / 100) 2 7 = Returns 0.
Proof.
  apply (cml_call_empty (mkCml None None None None) (155 / 100) 2 7);
    reflexivity.
Defined.

Lemma taylor_loop_reduce (O : reduction) (dx : R) (cs : list R) :
  forall (i : nat) (y : R),
    taylor_loop O dx cs i y = reduce O y (taylor_sum dx cs i).
Proof.
  induction cs as [|c cs IH]; intros i y; cbn [taylor_loop taylor_sum].
  - destruct O; simpl; ring.
  - rewrite IH. unfold std_pow. destruct O; simpl; ring.
Qed.

Lemma taylor_expansion_call_value {O : reduction} (t : taylor_expansion O) (x : R) :
  coeffs t <> [] ->
  taylor_expansion_call t x = Returns (taylor_value t x).
Proof.
  intros Hne. unfold taylor_expansion_call, taylor_value.
  destruct (coeffs t) as [|c cs]; [contradiction|].
  cbn [vector_index nth_error bind skipn nth].
  now rewrite taylor_loop_reduce.
Qed.

(** The wavelength model [n(l) = a0 - a1*(l - l0) - a2*(l - l0)^2] of
    the header comment. *)
Example wavelength_model_quadratic (l0 a0 a1 a2 l : R) :
  taylor_expansion_call (@mkTaylor std_minus l0 [a0; a1; a2]) l
  = Returns (a0 - a1 * (l - l0) - a2 * (l - l0) ^ 2).
Proof.
  unfold taylor_expansion_call; cbn. unfold std_pow. f_equal. ring.
Qed.

Lemma term_call_value {O : reduction} (f : option (taylor_expansion O)) (x prop : R) :
  (forall t, f = Some t -> coeffs t <> []) ->
  match f with
  | Some t => y <- taylor_expansion_call t x ;; Returns (prop + y)
  | None => Returns prop
  end = Returns (prop + term_value f x).
Proof.
  intros Hne. destruct f as [t|]; cbn [term_value].
  - rewrite taylor_expansion_call_value by now apply Hne.
    reflexivity.
  - f_equal. ring.
Qed.

(** C4 fails as stated: with the constant base 1 and a wavelength model
    whose only coefficient is 2, the evaluation returns 3, the base plus
    [coeffs[0]], where the claim gives the base alone, 1. *)
Lemma cml_wavelength_base_counterexample :
  cml_call (mkCml (Some 1) None (Some (mkTaylor 0 [2])) None) 0 0 0 = Returns 3
  /\ spec_evaluate (mkCml (Some 1) None (Some (mkTaylor 0 [2])) None) 0 0 0 = 1
  /\ cml_call (mkCml (Some 1) None (Some (mkTaylor 0 [2])) None) 0 0 0
     <> Returns (spec_evaluate (mkCml (Some 1) None (Some (mkTaylor 0 [2])) None) 0 0 0).
Proof.
  assert (H3 : cml_call (mkCml (Some 1) None (Some (mkTaylor 0 [2])) None) 0 0 0
               = Returns 3).
  { unfold cml_call, taylor_expansion_call; simpl. f_equal; ring. }
  assert (H1 : spec_evaluate (mkCml (Some 1) None (Some (mkTaylor 0 [2])) None) 0 0 0
               = 1).
  { unfold spec_evaluate, cml_base; simpl. ring. }
  split; [exact H3|]. split; [exact H1|].
  rewrite H3, H1. intros H. injection H. lra.
Qed.

(** C4, amended. For a model in which constant and sampled are not both
    present, the sample index is within the samples and each dispersion
    term has at least one coefficient, the evaluation takes the base
    (the constant if present, else [samples[i]], else 0), adds the
    wavelength term and then adds the width term.  The wavelength term
    is [coeffs[0]] minus the sum over [k >= 1] of
    [coeffs[k]*(l - l0)^k], so that the result is the base plus
    [coeffs[0]] minus the higher-order terms: [coeffs[0]] is added
    whether or not a base is present.  The result agrees with the
    specification's formula when no base is present, when there is no
    wavelength model, or when [coeffs[0] = 0]. *)
Theorem cml_call_value (m : cml) (l w : R) (i : nat) :
  (constant m = None \/ sampled m = None) ->
  (forall v, sampled m = Some v -> (i < length v)%nat) ->
  (forall t, wavelength_model m = Some t -> coeffs t <> []) ->
  (forall t, width_model m = Some t -> coeffs t <> []) ->
  cml_call m l w i
  = Returns (cml_base m i
             + term_value (wavelength_model m) l
             + term_value (width_model m) w)
  /\ (forall t, wavelength_model m = Some t ->
        term_value (wavelength_model m) l
        = nth 0 (coeffs t) 0 - taylor_sum (l - x0 t) (skipn 1 (coeffs t)) 1)
  /\ ((constant m = None /\ sampled m = None)
      \/ wavelength_model m = None
      \/ (exists t, wavelength_model m = Some t /\ nth 0 (coeffs t) 0 = 0) ->
      cml_call m l w i = Returns (spec_evaluate m l w i)).
Proof.
  intros Hexcl Hidx Hwl Hwd.
  assert (Hval : cml_call m l w i
                 = Returns (cml_base m i
                            + term_value (wavelength_model m) l
                            + term_value (width_model m) w)).
  { unfold cml_call, cml_base.
    destruct m as [c s wl wd]; cbn [constant sampled wavelength_model width_model] in *.
    destruct c as [c|], s as [v|]; cbn [bind].
    - destruct Hexcl; discriminate.
    - rewrite (term_call_value wl l c Hwl). cbn [bind].
      rewrite (term_call_value wd w _ Hwd). reflexivity.
    - rewrite vector_index_in_range by now apply Hidx.
      cbn [bind]. rewrite (term_call_value wl l _ Hwl). cbn [bind].
      rewrite (term_call_value wd w _ Hwd). reflexivity.
    - rewrite (term_call_value wl l 0 Hwl). cbn [bind].
      rewrite (term_call_value wd w _ Hwd). reflexivity. }
  split; [exact Hval|]. split.
  - intros t ->. reflexivity.
  - intros Hagree. rewrite Hval. f_equal.
    unfold spec_evaluate, cml_base.
    destruct m as [c s wl wd]; cbn [constant sampled wavelength_model width_model] in *.
    destruct Hagree as [[-> ->]|[->|(t & -> & H0)]].
    + destruct wl as [t|]; cbn [term_value]; [unfold taylor_value; simpl|]; ring.
    + cbn [term_value]. ring.
    + cbn [term_value]. unfold taylor_value. rewrite H0. simpl.
      destruct c, s; ring.
Qed.

Lemma cml_call_value_witness :
  cml_call (mkCml (Some 2) None (Some (mkTaylor 1 [0; 3])) None) 4 0 0
  = Returns (cml_base (mkCml (Some 2) None (Some (mkTaylor 1 [0; 3])) None) 0
             + term_value (Some (@mkTaylor std_minus 1 [0; 3])) 4
             + term_value (@None width_model_t) 0)
  /\ cml_call (mkCml (Some 2) None (Some (mkTaylor 1 [0; 3])) None) 4 0 0
     = Returns (spec_evaluate (mkCml (Some 2) None (Some (mkTaylor 1 [0; 3])) None) 4 0 0).
Proof.
  pose proof (cml_call_value
                (mkCml (Some 2) None (Some (mkTaylor 1 [0; 3])) None) 4 0 0) as H.
  cbn [constant sampled wavelength_model width_model] in H.
  destruct H as (Hv & _ & Hs).
  - right; reflexivity.
  - intros v Hv; discriminate Hv.
  - intros t Ht; injection Ht as <-; discriminate.
  - intros t Ht; discriminate Ht.
  - split; [exact Hv|].
    apply Hs. right; right.
    exists (mkTaylor 1 [0; 3]). split; reflexivity.
Defined.

(** * Further properties *)

(** ** Binary exponentiation *)

Lemma matrix_pow_nat_mul (T : matrix) (n m : nat) :
  matrix_pow_nat (matrix_pow_nat T n) m = matrix_pow_nat T (n * m).
Proof.
  induction m as [|m IH].
  - now rewrite Nat.mul_0_r.
  - cbn [matrix_pow_nat]. rewrite IH, <- matrix_pow_nat_add.
    f_equal. lia.
Qed.

(** X1. The binary exponentiation loop computes the repeated product:
    for every non-negative count [N], [matrix_power T N] is [T]
    multiplied by itself [N] times; in particular the first power is
    [T] itself. *)
Theorem matrix_power_repeated_product (T : matrix) (N : Z) :
  (0 <= N)%Z ->
  matrix_power T N = Returns (matrix_pow_nat T (Z.to_nat N))
  /\ matrix_power T 1 = Returns T
  /\ matrix_power T (N + 1)
     = Returns (multiply T (matrix_pow_nat T (Z.to_nat N))).
Proof.
  intros HN. split; [now apply matrix_power_spec|].
  split; [apply matrix_power_1|].
  rewrite matrix_power_spec by lia.
  replace (Z.to_nat (N + 1)) with (S (Z.to_nat N)) by lia.
  reflexivity.
Qed.

Lemma matrix_power_repeated_product_witness :
  matrix_power (Mat C1 C1 C0 C1) 3
  = Returns (matrix_pow_nat (Mat C1 C1 C0 C1) (Z.to_nat 3))
  /\ matrix_power (Mat C1 C1 C0 C1) 1 = Returns (Mat C1 C1 C0 C1)
  /\ matrix_power (Mat C1 C1 C0 C1) (3 + 1)
     = Returns (multiply (Mat C1 C1 C0 C1)
                  (matrix_pow_nat (Mat C1 C1 C0 C1) (Z.to_nat 3))).
Proof. apply (matrix_power_repeated_product (Mat C1 C1 C0 C1) 3). lia. Defined.

(** X2. A power of a power is the power at the product of the counts. *)
Theorem matrix_power_power (T : matrix) (a b : Z) :
  (0 <= a)%Z -> (0 <= b)%Z ->
  (P <- matrix_power T a ;; matrix_power P b) = matrix_power T (a * b).
Proof.
  intros Ha Hb. rewrite !matrix_power_spec by lia. cbn [bind].
  rewrite matrix_power_spec by lia.
  rewrite matrix_pow_nat_mul, Z2Nat.inj_mul by lia. reflexivity.
Qed.

Lemma matrix_power_power_witness :
  (P <- matrix_power (Mat C1 C1 C0 C1) 2 ;; matrix_power P 3)
  = matrix_power (Mat C1 C1 C0 C1) (2 * 3).
Proof. apply (matrix_power_power (Mat C1 C1 C0 C1) 2 3); lia. Defined.

(** ** Determinants *)

Lemma det_multiply (A B : matrix) : det (multiply A B) = Cmul (det A) (det B).
Proof. destruct A, B. unfold det, multiply; cbn [m00 m01 m10 m11]. complex_ring. Qed.

Lemma det_identity : det identity = C1.
Proof. unfold det, identity; cbn [m00 m01 m10 m11]. complex_ring. Qed.

Lemma det_matrix_pow_nat (T : matrix) (n : nat) :
  det (matrix_pow_nat T n) = Cpow (det T) n.
Proof.
  induction n as [|n IH]; cbn [matrix_pow_nat Cpow].
  - apply det_identity.
  - now rewrite det_multiply, IH.
Qed.

Lemma Cpow_C1 (n : nat) : Cpow C1 n = C1.
Proof.
  induction n as [|n IH]; cbn [Cpow]; [reflexivity|].
  rewrite IH. complex_ring.
Qed.



(** ** Homogeneous layers *)

Lemma Cexp_add (u v : complex) : Cmul (Cexp u) (Cexp v) = Cexp (Cadd u v).
Proof.
  unfold Cexp, Cmul, Cadd; cbn [re im].
  rewrite exp_plus, cos_plus, sin_plus.
  apply complex_eq; cbn [re im]; ring.
Qed.

Lemma Cexp_C0 : Cexp C0 = C1.
Proof.
  unfold Cexp, C0, C1; cbn [re im].
  rewrite exp_0, cos_0, sin_0. apply complex_eq; cbn [re im]; ring.
Qed.

Lemma multiply_diag (a b c d : complex) :
  multiply (diag a b) (diag c d) = diag (Cmul a c) (Cmul b d).
Proof. unfold diag. destruct a, b, c, d. matrix_ring. Qed.

Lemma homogeneous_layer_diag (wavelength length neff loss : R) :
  homogeneous_layer wavelength length neff loss
  = Returns (diag (Cexp (propagation_exponent wavelength length neff loss))
                  (Cexp (Copp (propagation_exponent wavelength length neff loss)))).
Proof.
  unfold homogeneous_layer, beta, propagation_exponent, diag; cbn [bind].
  now rewrite Cmul_minus_i.
Qed.

Lemma propagation_exponent_add (wavelength L1 L2 neff loss : R) :
  propagation_exponent wavelength (L1 + L2) neff loss
  = Cadd (propagation_exponent wavelength L1 neff loss)
         (propagation_exponent wavelength L2 neff loss).
Proof. unfold propagation_exponent. complex_ring. Qed.

Lemma propagation_exponent_0 (wavelength neff loss : R) :
  propagation_exponent wavelength 0 neff loss = C0.
Proof. unfold propagation_exponent. complex_ring. Qed.

Lemma propagation_exponent_re (wavelength length neff loss : R) :
  re (propagation_exponent wavelength length neff loss) = loss * length / 2.
Proof. unfold propagation_exponent; cbn [re im Cmul Cscale]. unfold Rdiv. ring. Qed.

Lemma Copp_Cadd (u v : complex) : Copp (Cadd u v) = Cadd (Copp u) (Copp v).
Proof. complex_ring. Qed.

Lemma Cadd_Copp_r (u : complex) : Cadd u (Copp u) = C0.
Proof. complex_ring. Qed.

Lemma homogeneous_layer_multiply (wavelength L1 L2 neff loss : R) :
  multiply
    (diag (Cexp (propagation_exponent wavelength L1 neff loss))
          (Cexp (Copp (propagation_exponent wavelength L1 neff loss))))
    (diag (Cexp (propagation_exponent wavelength L2 neff loss))
          (Cexp (Copp (propagation_exponent wavelength L2 neff loss))))
  = diag (Cexp (propagation_exponent wavelength (L1 + L2) neff loss))
         (Cexp (Copp (propagation_exponent wavelength (L1 + L2) neff loss))).
Proof.
  rewrite multiply_diag, !Cexp_add, propagation_exponent_add, Copp_Cadd.
  reflexivity.
Qed.

(** X4. Homogeneous layers of one medium compose by adding their
    lengths: at a wavelength other than 0, the product of the
    propagators of lengths [L1] and [L2] is the propagator of length
    [L1 + L2], and the propagator of length 0 is the identity. *)
Theorem homogeneous_layer_compose (wavelength L1 L2 neff loss : R) :
  wavelength <> 0 ->
  (P1 <- homogeneous_layer wavelength L1 neff loss ;;
   P2 <- homogeneous_layer wavelength L2 neff loss ;;
   Returns (multiply P1 P2))
  = homogeneous_layer wavelength (L1 + L2) neff loss
  /\ homogeneous_layer wavelength 0 neff loss = Returns identity.
Proof.
  intros _.
  rewrite !homogeneous_layer_diag; cbn [bind]. split.
  - now rewrite homogeneous_layer_multiply.
  - rewrite propagation_exponent_0.
    replace (Copp C0) with C0 by complex_ring.
    now rewrite Cexp_C0.
Qed.

Lemma homogeneous_layer_compose_witness :
  (P1 <- homogeneous_layer 2 5 3 4 ;;
   P2 <- homogeneous_layer 2 7 3 4 ;;
   Returns (multiply P1 P2))
  = homogeneous_layer 2 (5 + 7) 3 4
  /\ homogeneous_layer 2 0 3 4 = Returns identity.
Proof. apply (homogeneous_layer_compose 2 5 7 3 4). lra. Defined.

(** X5. Attenuation of a homogeneous layer: at a wavelength other than
    0 the forward entry has modulus [exp(loss*length/2)], the backward
    entry [exp(-loss*length/2)], whatever the index; their product
    is 1. *)
Theorem homogeneous_layer_attenuation (wavelength length neff loss : R) (P : matrix) :
  wavelength <> 0 ->
  homogeneous_layer wavelength length neff loss = Returns P ->
  Cabs (m00 P) = exp (loss * length / 2)
  /\ Cabs (m11 P) = exp (- (loss * length / 2))
  /\ Cabs (m00 P) * Cabs (m11 P) = 1.
Proof.
  intros _.
  rewrite homogeneous_layer_diag. intros HP. injection HP as <-.
  unfold diag; cbn [m00 m11]. rewrite !Cabs_Cexp.
  cbn [Copp re]. rewrite propagation_exponent_re.
  repeat split.
  rewrite <- exp_plus, <- exp_0. f_equal. lra.
Qed.

Lemma homogeneous_layer_attenuation_witness :
  Cabs (Cexp (propagation_exponent 2 5 3 4)) = exp (4 * 5 / 2)
  /\ Cabs (Cexp (Copp (propagation_exponent 2 5 3 4))) = exp (- (4 * 5 / 2))
  /\ Cabs (Cexp (propagation_exponent 2 5 3 4))
     * Cabs (Cexp (Copp (propagation_exponent 2 5 3 4))) = 1.
Proof.
  apply (homogeneous_layer_attenuation 2 5 3 4
           (diag (Cexp (propagation_exponent 2 5 3 4))
                 (Cexp (Copp (propagation_exponent 2 5 3 4))))).
  - lra.
  - apply homogeneous_layer_diag.
Defined.

(** ** Index steps *)

Lemma index_step_eq (n1 n2 : R) :
  index_step n1 n2
  = Returns (Mat (of_double ((n1 + n2) / (2 * sqrt (n1 * n2))))
                 (of_double ((n1 - n2) / (2 * sqrt (n1 * n2))))
                 (of_double ((n1 - n2) / (2 * sqrt (n1 * n2))))
                 (of_double ((n1 + n2) / (2 * sqrt (n1 * n2))))).
Proof. reflexivity. Qed.

(** X6. Index steps between media of positive index compose: the step
    from [n1] to [n2] followed by the step from [n2] to [n3] is the
    step from [n1] to [n3]. *)
Theorem index_step_compose (n1 n2 n3 : R) :
  n1 > 0 -> n2 > 0 -> n3 > 0 ->
  (A <- index_step n1 n2 ;; B <- index_step n2 n3 ;; Returns (multiply A B))
  = index_step n1 n3.
Proof.
  intros H1 H2 H3. rewrite !index_step_eq; cbn [bind]. f_equal.
  rewrite !sqrt_mult by lra.
  pose proof (sqrt_lt_R0 _ H1) as Hs1. pose proof (sqrt_sqrt n1 ltac:(lra)) as Hq1.
  pose proof (sqrt_lt_R0 _ H2) as Hs2. pose proof (sqrt_sqrt n2 ltac:(lra)) as Hq2.
  pose proof (sqrt_lt_R0 _ H3) as Hs3. pose proof (sqrt_sqrt n3 ltac:(lra)) as Hq3.
  set (s1 := sqrt n1) in *. set (s2 := sqrt n2) in *. set (s3 := sqrt n3) in *.
  rewrite <- Hq1, <- Hq2, <- Hq3.
  unfold multiply; cbn [m00 m01 m10 m11].
  f_equal; apply complex_eq; cbn [re im Cadd Cmul of_double]; field; lra.
Qed.

Lemma index_step_compose_witness :
  (A <- index_step 3 2 ;; B <- index_step 2 1 ;; Returns (multiply A B))
  = index_step 3 1.
Proof. apply (index_step_compose 3 2 1); lra. Defined.

(** X7. A step between equal indices: the identity for a positive
    index, minus the identity for a negative one. *)
Theorem index_step_equal_indices (n : R) :
  (n > 0 -> index_step n n = Returns identity)
  /\ (n < 0 ->
      index_step n n = Returns (diag (of_double (-1)) (of_double (-1)))).
Proof.
  split; [apply index_step_same|].
  intros Hn. rewrite index_step_eq. unfold diag, of_double, C0.
  replace (n * n) with ((- n) * (- n)) by ring.
  rewrite sqrt_square by lra.
  do 2 f_equal; apply complex_eq; cbn [re im]; try reflexivity; field; lra.
Qed.

Lemma index_step_equal_indices_witness :
  index_step 2 2 = Returns identity
  /\ index_step (-2) (-2) = Returns (diag (of_double (-1)) (of_double (-1))).
Proof.
  split.
  - apply (proj1 (index_step_equal_indices 2)). lra.
  - apply (proj2 (index_step_equal_indices (-2))). lra.
Defined.

Lemma index_step_sqr (n1 n2 : R) :
  n1 * n2 > 0 ->
  (n1 + n2) / (2 * sqrt (n1 * n2)) * ((n1 + n2) / (2 * sqrt (n1 * n2)))
  - (n1 - n2) / (2 * sqrt (n1 * n2)) * ((n1 - n2) / (2 * sqrt (n1 * n2))) = 1.
Proof.
  intros Hpos.
  pose proof (sqrt_lt_R0 _ Hpos) as Hs.
  pose proof (sqrt_sqrt (n1 * n2) ltac:(lra)) as Hss.
  set (s := sqrt (n1 * n2)) in *.
  replace ((n1 + n2) / (2 * s) * ((n1 + n2) / (2 * s))
           - (n1 - n2) / (2 * s) * ((n1 - n2) / (2 * s)))
    with (n1 * n2 / (s * s)) by (field; lra).
  rewrite Hss. unfold Rdiv. apply Rinv_r. lra.
Qed.

Lemma index_step_there_and_back (n1 n2 : R) (A B : matrix) :
  n1 * n2 > 0 ->
  index_step n1 n2 = Returns A -> index_step n2 n1 = Returns B ->
  multiply A B = identity.
Proof.
  intros Hpos HA HB. rewrite index_step_eq in HA, HB.
  injection HA as <-. injection HB as <-.
  rewrite (Rmult_comm n2 n1).
  pose proof (index_step_sqr n1 n2 Hpos) as Hsq.
  set (a := (n1 + n2) / (2 * sqrt (n1 * n2))) in *.
  set (b := (n1 - n2) / (2 * sqrt (n1 * n2))) in *.
  replace ((n2 - n1) / (2 * sqrt (n1 * n2))) with (- b)
    by (subst b; unfold Rdiv; ring).
  replace ((n2 + n1) / (2 * sqrt (n1 * n2))) with a
    by (subst a; unfold Rdiv; ring).
  unfold multiply, identity, C0, C1; cbn [m00 m01 m10 m11].
  f_equal; apply complex_eq; cbn [re im Cadd Cmul of_double]; lra.
Qed.

(** X8. Stepping from [n1] to [n2] and back is the identity whenever
    [n1 * n2 > 0]; the step back has the same diagonal entry and the
    negated off-diagonal entry. *)
Theorem index_step_round_trip (n1 n2 : R) :
  n1 * n2 > 0 ->
  (A <- index_step n1 n2 ;; B <- index_step n2 n1 ;; Returns (multiply A B))
  = Returns identity
  /\ (forall A B, index_step n1 n2 = Returns A -> index_step n2 n1 = Returns B ->
        m00 B = m00 A /\ m01 B = Copp (m01 A) /\ m10 B = Copp (m10 A)
        /\ m11 B = m11 A).
Proof.
  intros Hpos. split; [|intros A B; apply index_step_swap].
  rewrite (index_step_eq n1 n2), (index_step_eq n2 n1); cbn [bind]. f_equal.
  apply (index_step_there_and_back n1 n2); [exact Hpos| |]; apply index_step_eq.
Qed.

Lemma index_step_round_trip_witness :
  (A <- index_step 3 2 ;; B <- index_step 2 3 ;; Returns (multiply A B))
  = Returns identity.
Proof. apply (proj1 (index_step_round_trip 3 2 ltac:(lra))). Defined.

Lemma det_index_step (n1 n2 : R) (T : matrix) :
  n1 * n2 > 0 -> index_step n1 n2 = Returns T -> det T = C1.
Proof.
  intros Hpos HT. rewrite index_step_eq in HT. injection HT as <-.
  pose proof (index_step_sqr n1 n2 Hpos) as Hsq.
  unfold det, C1; cbn [m00 m01 m10 m11].
  apply complex_eq; cbn [re im Cadd Cmul Copp of_double]; lra.
Qed.

Lemma det_homogeneous_layer (wavelength length neff loss : R) (P : matrix) :
  homogeneous_layer wavelength length neff loss = Returns P -> det P = C1.
Proof.
  rewrite homogeneous_layer_diag. intros HP. injection HP as <-.
  unfold det, diag; cbn [m00 m01 m10 m11].
  rewrite Cexp_add, Cadd_Copp_r, Cexp_C0. complex_ring.
Qed.

(** ** Transfer and scattering matrices *)

(** The single-period matrix is the ordered product of the four layer
    matrices. *)
Lemma transfer_matrix_product (g : Bragg) (wavelength n1 n2 loss : R) :
  exists P1 I12 P2 I21,
    homogeneous_layer wavelength (_period g * _duty_cycle g) n1 loss = Returns P1
    /\ index_step n1 n2 = Returns I12
    /\ homogeneous_layer wavelength (_period g * (1 - _duty_cycle g)) n2 loss
       = Returns P2
    /\ index_step n2 n1 = Returns I21
    /\ transfer_matrix g wavelength n1 n2 loss
       = Returns (multiply (multiply (multiply P1 I12) P2) I21).
Proof.
  unfold transfer_matrix.
  rewrite !homogeneous_layer_diag, !index_step_eq; cbn [bind].
  do 4 eexists. repeat split.
  now rewrite !damm_multiply_zeros.
Qed.

(** A scattering matrix that is returned is a power of the
    single-period matrix. *)
Lemma scattering_matrix_inv (g : Bragg) (wavelength n1 n2 loss : R) (S : matrix) :
  scattering_matrix g wavelength n1 n2 loss = Returns S ->
  exists Tp n,
    transfer_matrix g wavelength n1 n2 loss = Returns Tp
    /\ size_t_of_double (_N g) = Returns (Z.of_nat n)
    /\ S = matrix_pow_nat Tp n.
Proof.
  intros HS.
  destruct (scattering_matrix_unfold g wavelength n1 n2 loss) as (Tp & HTp & Hun).
  rewrite Hun in HS.
  destruct (size_t_of_double (_N g)) as [N| |] eqn:HN; cbn [bind] in HS;
    try discriminate.
  assert (0 <= N)%Z as HN0.
  { unfold size_t_of_double in HN.
    destruct (_ && _)%bool eqn:Hrange; [|discriminate].
    injection HN as <-. apply andb_true_iff in Hrange. lia. }
  rewrite matrix_power_spec in HS by exact HN0. injection HS as <-.
  exists Tp, (Z.to_nat N). rewrite Z2Nat.id by exact HN0. now repeat split.
Qed.

Lemma det_transfer_matrix (g : Bragg) (wavelength n1 n2 loss : R) (Tp : matrix) :
  n1 * n2 > 0 ->
  transfer_matrix g wavelength n1 n2 loss = Returns Tp -> det Tp = C1.
Proof.
  intros Hpos HTp.
  destruct (transfer_matrix_product g wavelength n1 n2 loss)
    as (P1 & I12 & P2 & I21 & HP1 & HI12 & HP2 & HI21 & Heq).
  rewrite Heq in HTp. injection HTp as <-.
  rewrite !det_multiply.
  rewrite (det_homogeneous_layer _ _ _ _ _ HP1), (det_homogeneous_layer _ _ _ _ _ HP2).
  rewrite (det_index_step n1 n2 I12 Hpos HI12).
  rewrite (det_index_step n2 n1 I21) by (try exact HI21; lra).
  complex_ring.
Qed.

Lemma det_scattering_matrix (g : Bragg) (wavelength n1 n2 loss : R) (S : matrix) :
  n1 * n2 > 0 ->
  scattering_matrix g wavelength n1 n2 loss = Returns S -> det S = C1.
Proof.
  intros Hpos HS.
  destruct (scattering_matrix_inv _ _ _ _ _ _ HS) as (Tp & n & HTp & _ & ->).
  rewrite det_matrix_pow_nat, (det_transfer_matrix _ _ _ _ _ _ Hpos HTp).
  apply Cpow_C1.
Qed.



(** ** Lossless gratings *)

Lemma conjugate_symmetric_identity : conjugate_symmetric identity.
Proof. split; unfold identity, Cconj, C0, C1; cbn [m00 m01 m10 m11 re im];
       apply complex_eq; cbn [re im]; ring. Qed.

Lemma conjugate_symmetric_multiply (A B : matrix) :
  conjugate_symmetric A -> conjugate_symmetric B ->
  conjugate_symmetric (multiply A B).
Proof.
  destruct A as [a00 a01 a10 a11], B as [b00 b01 b10 b11].
  unfold conjugate_symmetric; cbn [m00 m01 m10 m11 multiply].
  intros [-> ->] [-> ->].
  split; apply complex_eq; cbn [re im Cadd Cmul Cconj]; ring.
Qed.

Lemma conjugate_symmetric_pow (T : matrix) (n : nat) :
  conjugate_symmetric T -> conjugate_symmetric (matrix_pow_nat T n).
Proof.
  intros HT. induction n as [|n IH]; cbn [matrix_pow_nat].
  - apply conjugate_symmetric_identity.
  - now apply conjugate_symmetric_multiply.
Qed.

Lemma conjugate_symmetric_index_step (n1 n2 : R) (T : matrix) :
  index_step n1 n2 = Returns T -> conjugate_symmetric T.
Proof.
  rewrite index_step_eq. intros HT. injection HT as <-.
  split; cbn [m00 m01 m10 m11]; apply complex_eq;
    cbn [re im Cconj of_double]; ring.
Qed.

Lemma conjugate_symmetric_lossless_layer (wavelength length neff : R) (P : matrix) :
  homogeneous_layer wavelength length neff 0 = Returns P ->
  conjugate_symmetric P.
Proof.
  rewrite homogeneous_layer_diag. intros HP. injection HP as <-.
  pose proof (propagation_exponent_re wavelength length neff 0) as Hre.
  replace (0 * length / 2) with 0 in Hre by lra.
  destruct (propagation_exponent wavelength length neff 0) as [x y].
  cbn [re] in Hre. subst x.
  split; unfold diag, Cconj, Cexp, Copp, C0; cbn [m00 m01 m10 m11 re im];
    apply complex_eq; cbn [re im]; rewrite ?Ropp_0, ?cos_neg, ?sin_neg; ring.
Qed.

Lemma conjugate_symmetric_lossless_transfer
    (g : Bragg) (wavelength n1 n2 : R) (Tp : matrix) :
  transfer_matrix g wavelength n1 n2 0 = Returns Tp -> conjugate_symmetric Tp.
Proof.
  intros HTp.
  destruct (transfer_matrix_product g wavelength n1 n2 0)
    as (P1 & I12 & P2 & I21 & HP1 & HI12 & HP2 & HI21 & Heq).
  rewrite Heq in HTp. injection HTp as <-.
  repeat apply conjugate_symmetric_multiply;
    eauto using conjugate_symmetric_lossless_layer, conjugate_symmetric_index_step.
Qed.

Lemma Cnorm2_Cconj (z : complex) : Cnorm2 (Cconj z) = Cnorm2 z.
Proof. unfold Cnorm2, Cconj; cbn [re im]. ring. Qed.

(** In a conjugate-symmetric matrix of determinant 1 the first row
    satisfies [|m00|^2 - |m01|^2 = 1]. *)
Lemma conjugate_symmetric_unimodular (M : matrix) :
  conjugate_symmetric M -> det M = C1 ->
  Cnorm2 (m00 M) - Cnorm2 (m01 M) = 1.
Proof.
  destruct M as [a b c d]. unfold conjugate_symmetric; cbn [m00 m01 m10 m11].
  intros [-> ->] Hdet. apply (f_equal re) in Hdet.
  unfold det, Cnorm2 in *; cbn [m00 m01 m10 m11 re im Cadd Cmul Copp Cconj C1] in *.
  lra.
Qed.

(** Power balance of a conjugate-symmetric matrix of determinant 1. *)
Lemma lossless_coefficients (M : matrix) (Rr Tt : R) :
  conjugate_symmetric M -> det M = C1 ->
  scattering_coefficients_db M = Returns (Rr, Tt) ->
  Rr + Tt = 1 /\ 0 <= Rr < 1 /\ 0 < Tt <= 1.
Proof.
  intros Hcs Hdet Hco.
  pose proof (conjugate_symmetric_unimodular M Hcs Hdet) as Hbal.
  pose proof (Cnorm2_nonneg (m01 M)) as Hb.
  assert (Hne : m00 M <> C0).
  { intros H0. rewrite H0 in Hbal. unfold Cnorm2 at 1, C0 in Hbal.
    cbn [re im] in Hbal. lra. }
  unfold scattering_coefficients_db, std_pow in Hco.
  assert (HR : Rr = Cabs (Cdiv (m10 M) (m00 M)) ^ 2) by congruence.
  assert (HT : Tt = Cabs (Cdiv (of_double 1) (m00 M)) ^ 2) by congruence.
  rewrite HR, HT.
  rewrite !Cabs_sqr, !Cnorm2_Cdiv by exact Hne.
  destruct Hcs as [H10 _]. rewrite H10, Cnorm2_Cconj.
  replace (Cnorm2 (of_double 1)) with 1
    by (unfold Cnorm2, of_double; cbn [re im]; ring).
  set (A := Cnorm2 (m00 M)) in *. set (B := Cnorm2 (m01 M)) in *.
  assert (HA : A = 1 + B) by lra.
  assert (HA0 : 0 < A) by lra.
  assert (HiA : 0 < / A) by now apply Rinv_0_lt_compat.
  assert (HAi : A * / A = 1) by (apply Rinv_r; lra).
  unfold Rdiv. repeat split; nra.
Qed.

Lemma lossless_returned
    (g : Bragg) (wavelength n1 n2 : R) (Rr Tt : R) :
  n1 * n2 > 0 ->
  scattering_coefficients g wavelength n1 n2 0 = Returns (Rr, Tt) ->
  Rr + Tt = 1 /\ 0 <= Rr < 1 /\ 0 < Tt <= 1.
Proof.
  intros Hpos Hco. unfold scattering_coefficients in Hco.
  destruct (scattering_matrix g wavelength n1 n2 0) as [S| |] eqn:HS;
    cbn [bind] in Hco; try discriminate.
  apply (lossless_coefficients S); [| |exact Hco].
  - destruct (scattering_matrix_inv _ _ _ _ _ _ HS) as (Tp & n & HTp & _ & ->).
    apply conjugate_symmetric_pow.
    now apply (conjugate_symmetric_lossless_transfer g wavelength n1 n2).
  - now apply (det_scattering_matrix g wavelength n1 n2 0).
Qed.

Lemma scattering_coefficients_returns_pair
    (g : Bragg) (wavelength n1 n2 loss : R) (n : Z) :
  (0 <= n <= SIZE_MAX)%Z -> IZR n <= _N g < IZR n + 1 ->
  exists Rr Tt, scattering_coefficients g wavelength n1 n2 loss = Returns (Rr, Tt).
Proof.
  intros Hn HN.
  destruct (scattering_matrix_power g wavelength n1 n2 loss n) as (Tp & _ & HS).
  { now apply size_t_of_double_floor. }
  unfold scattering_coefficients. rewrite HS; cbn [bind].
  unfold scattering_coefficients_db. eauto.
Qed.

(** X10. Energy conservation: for a lossless grating ([loss = 0]) with
    [n1 * n2 > 0], a wavelength other than 0 and a period count whose
    integer part [n] is a [size_t], whatever the geometry, the
    coefficients are returned and satisfy [R + T = 1], with
    [0 <= R < 1] and [0 < T <= 1]. *)
Theorem lossless_energy_conservation
    (g : Bragg) (wavelength n1 n2 : R) (n : Z) :
  wavelength <> 0 ->
  n1 * n2 > 0 ->
  (0 <= n <= SIZE_MAX)%Z -> IZR n <= _N g < IZR n + 1 ->
  exists Rr Tt,
    scattering_coefficients g wavelength n1 n2 0 = Returns (Rr, Tt)
    /\ Rr + Tt = 1 /\ 0 <= Rr < 1 /\ 0 < Tt <= 1.
Proof.
  intros _ Hpos Hn HN.
  destruct (scattering_coefficients_returns_pair g wavelength n1 n2 0 n Hn HN)
    as (Rr & Tt & Hco).
  exists Rr, Tt. split; [exact Hco|].
  now apply (lossless_returned g wavelength n1 n2).
Qed.

Lemma lossless_energy_conservation_witness :
  exists Rr Tt,
    scattering_coefficients (mkBragg 1 (1 / 2) 100) (155 / 100) (22 / 10) 2 0
    = Returns (Rr, Tt)
    /\ Rr + Tt = 1 /\ 0 <= Rr < 1 /\ 0 < Tt <= 1.
Proof.
  apply (lossless_energy_conservation
           (mkBragg 1 (1 / 2) 100) (155 / 100) (22 / 10) 2 100).
  - lra.
  - lra.
  - unfold SIZE_MAX; lia.
  - cbn [_N]. lra.
Defined.

(** ** Uniform medium *)

Lemma propagator_multiply (wavelength L1 L2 neff loss : R) :
  multiply (propagator wavelength L1 neff loss) (propagator wavelength L2 neff loss)
  = propagator wavelength (L1 + L2) neff loss.
Proof. apply homogeneous_layer_multiply. Qed.

Lemma propagator_0 (wavelength neff loss : R) :
  propagator wavelength 0 neff loss = identity.
Proof.
  unfold propagator. rewrite propagation_exponent_0.
  replace (Copp C0) with C0 by complex_ring.
  now rewrite Cexp_C0.
Qed.

Lemma propagator_pow (wavelength L neff loss : R) (k : nat) :
  matrix_pow_nat (propagator wavelength L neff loss) k
  = propagator wavelength (INR k * L) neff loss.
Proof.
  induction k as [|k IH].
  - cbn [matrix_pow_nat INR]. rewrite Rmult_0_l. symmetry. apply propagator_0.
  - cbn [matrix_pow_nat]. rewrite IH, propagator_multiply, S_INR.
    f_equal. ring.
Qed.

Lemma Cexp_neq_C0 (z : complex) : Cexp z <> C0.
Proof.
  intros H0. pose proof (Cabs_Cexp z) as Habs. rewrite H0, Cabs_C0 in Habs.
  pose proof (exp_pos (re z)). lra.
Qed.

Lemma Cdiv_C0_l (z : complex) : Cdiv C0 z = C0.
Proof. unfold Cdiv, C0; cbn [re im]. apply complex_eq; cbn [re im]; unfold Rdiv; ring. Qed.

(** A homogeneous stretch reflects nothing and transmits
    [exp(-loss*length)]. *)
Lemma propagator_coefficients (wavelength L neff loss : R) :
  scattering_coefficients_db (propagator wavelength L neff loss)
  = Returns (0, exp (- (loss * L))).
Proof.
  unfold scattering_coefficients_db, std_pow, propagator, diag; cbn [m00 m10].
  rewrite Cdiv_C0_l, Cabs_C0, Cabs_sqr, Cnorm2_Cdiv by apply Cexp_neq_C0.
  rewrite <- (Cabs_sqr (Cexp _)), Cabs_Cexp, propagation_exponent_re.
  f_equal. f_equal; [ring|].
  replace (Cnorm2 (of_double 1)) with 1
    by (unfold Cnorm2, of_double; cbn [re im]; ring).
  rewrite exp_Ropp. unfold Rdiv. rewrite Rmult_1_l. f_equal.
  simpl. rewrite Rmult_1_r, <- exp_plus. f_equal. lra.
Qed.

Lemma transfer_matrix_uniform (g : Bragg) (wavelength n loss : R) :
  n > 0 ->
  transfer_matrix g wavelength n n loss
  = Returns (propagator wavelength (_period g) n loss).
Proof.
  intros Hn.
  destruct (transfer_matrix_product g wavelength n n loss)
    as (P1 & I12 & P2 & I21 & HP1 & HI12 & HP2 & HI21 & ->).
  rewrite index_step_same in HI12, HI21 by exact Hn.
  injection HI12 as <-. injection HI21 as <-.
  rewrite homogeneous_layer_diag in HP1, HP2.
  injection HP1 as <-. injection HP2 as <-.
  rewrite !multiply_identity_r. fold (propagator wavelength (_period g * _duty_cycle g) n loss).
  fold (propagator wavelength (_period g * (1 - _duty_cycle g)) n loss).
  rewrite propagator_multiply. do 2 f_equal. ring.
Qed.

(** X11. A grating whose two sections have the same positive index is
    a uniform waveguide: whatever the duty cycle, at a wavelength other
    than 0 a period is the propagator of length [period], nothing is
    reflected ([R = 0]) and the transmission over [n] periods is
    [exp(-loss * n * period)]. *)
Theorem uniform_medium (g : Bragg) (wavelength idx loss : R) (n : Z) :
  wavelength <> 0 ->
  idx > 0 ->
  (0 <= n <= SIZE_MAX)%Z -> IZR n <= _N g < IZR n + 1 ->
  transfer_matrix g wavelength idx idx loss
  = homogeneous_layer wavelength (_period g) idx loss
  /\ scattering_coefficients g wavelength idx idx loss
     = Returns (0, exp (- (loss * (IZR n * _period g)))).
Proof.
  intros _ Hidx Hn HN. split.
  - rewrite transfer_matrix_uniform by exact Hidx.
    symmetry. apply homogeneous_layer_diag.
  - destruct (scattering_matrix_power g wavelength idx idx loss n) as (Tp & HTp & HS).
    { now apply size_t_of_double_floor. }
    rewrite transfer_matrix_uniform in HTp by exact Hidx. injection HTp as <-.
    unfold scattering_coefficients. rewrite HS; cbn [bind].
    rewrite propagator_pow, propagator_coefficients.
    rewrite INR_IZR_INZ, Z2Nat.id by lia. reflexivity.
Qed.

Lemma uniform_medium_witness :
  transfer_matrix (mkBragg 2 (1 / 4) 3) 1 2 2 (1 / 10)
  = homogeneous_layer 1 (_period (mkBragg 2 (1 / 4) 3)) 2 (1 / 10)
  /\ scattering_coefficients (mkBragg 2 (1 / 4) 3) 1 2 2 (1 / 10)
     = Returns (0, exp (- (1 / 10 * (3 * _period (mkBragg 2 (1 / 4) 3))))).
Proof.
  apply (uniform_medium (mkBragg 2 (1 / 4) 3) 1 2 (1 / 10) 3).
  - lra.
  - lra.
  - unfold SIZE_MAX; lia.
  - cbn [_N]. lra.
Defined.

(** ** Duty cycle 1 *)

Lemma transfer_matrix_full_duty (period N wavelength n1 n2 loss : R) :
  n1 * n2 > 0 ->
  transfer_matrix (mkBragg period 1 N) wavelength n1 n2 loss
  = Returns (propagator wavelength period n1 loss).
Proof.
  intros Hpos.
  destruct (transfer_matrix_product (mkBragg period 1 N) wavelength n1 n2 loss)
    as (P1 & I12 & P2 & I21 & HP1 & HI12 & HP2 & HI21 & ->).
  cbn [_period _duty_cycle] in HP1, HP2.
  replace (period * 1) with period in HP1 by ring.
  replace (period * (1 - 1)) with 0 in HP2 by ring.
  rewrite homogeneous_layer_diag in HP1, HP2.
  injection HP1 as <-. injection HP2 as <-.
  fold (propagator wavelength 0 n2 loss). rewrite propagator_0.
  rewrite multiply_identity_r, <- multiply_assoc.
  rewrite (index_step_there_and_back n1 n2 I12 I21 Hpos HI12 HI21).
  now rewrite multiply_identity_r.
Qed.

(** X12. With duty cycle 1 the second section has no length: for
    [n1 * n2 > 0] and a wavelength other than 0 the period is the
    propagator of length [period] in the first medium, whatever [n2];
    nothing is reflected and the transmission over [n] periods is
    [exp(-loss * n * period)]. *)
Theorem full_duty_cycle (period N wavelength n1 n2 loss : R) (n : Z) :
  wavelength <> 0 ->
  n1 * n2 > 0 ->
  (0 <= n <= SIZE_MAX)%Z -> IZR n <= N < IZR n + 1 ->
  transfer_matrix (mkBragg period 1 N) wavelength n1 n2 loss
  = homogeneous_layer wavelength period n1 loss
  /\ scattering_coefficients (mkBragg period 1 N) wavelength n1 n2 loss
     = Returns (0, exp (- (loss * (IZR n * period)))).
Proof.
  intros _ Hpos Hn HN. split.
  - rewrite transfer_matrix_full_duty by exact Hpos.
    symmetry. apply homogeneous_layer_diag.
  - destruct (scattering_matrix_power (mkBragg period 1 N) wavelength n1 n2 loss n)
      as (Tp & HTp & HS).
    { now apply size_t_of_double_floor. }
    rewrite transfer_matrix_full_duty in HTp by exact Hpos. injection HTp as <-.
    unfold scattering_coefficients. rewrite HS; cbn [bind].
    rewrite propagator_pow, propagator_coefficients.
    rewrite INR_IZR_INZ, Z2Nat.id by lia. reflexivity.
Qed.

Lemma full_duty_cycle_witness :
  transfer_matrix (mkBragg 2 1 3) 1 3 2 (1 / 10)
  = homogeneous_layer 1 2 3 (1 / 10)
  /\ scattering_coefficients (mkBragg 2 1 3) 1 3 2 (1 / 10)
     = Returns (0, exp (- (1 / 10 * (3 * 2)))).
Proof.
  apply (full_duty_cycle 2 3 1 3 2 (1 / 10) 3).
  - lra.
  - lra.
  - unfold SIZE_MAX; lia.
  - lra.
Defined.


(** ** Edges of the period-count conversion *)

Lemma truncate_small (x : R) : -1 < x < 1 -> truncate x = 0%Z.
Proof.
  intros Hx. unfold truncate. destruct (Rle_dec 0 x) as [Hpos|Hneg].
  - apply Zfloor_eq. simpl. lra.
  - apply Zceil_eq. simpl. lra.
Qed.

Lemma size_t_of_double_out_of_range (x : R) :
  x <= -1 \/ IZR (SIZE_MAX + 1) <= x -> size_t_of_double x = Undefined.
Proof.
  intros Hx. unfold size_t_of_double, truncate.
  destruct (Rle_dec 0 x) as [Hpos|Hneg].
  - destruct Hx as [Hx|Hx]; [lra|].
    apply Zfloor_lub in Hx.
    replace (Zfloor x <=? SIZE_MAX)%Z with false
      by (symmetry; apply Z.leb_gt; lia).
    now rewrite andb_false_r.
  - destruct Hx as [Hx|Hx].
    2:{ exfalso. apply Hneg. apply Rle_trans with (2 := Hx).
        apply IZR_le. unfold SIZE_MAX. lia. }
    pose proof (Zceil_bound x) as [Hlo _].
    assert (Zceil x < 0)%Z by (apply lt_IZR; lra).
    replace (0 <=? Zceil x)%Z with false by (symmetry; apply Z.leb_gt; lia).
    reflexivity.
Qed.

(** X13. Edges of the period count.  A count strictly between -1 and 1
    is truncated to zero periods: the scattering matrix is the identity
    and [(R, T) = (0, 1)].  A count of -1 or less, or of [2^64] or more,
    does not fit a [size_t]: the evaluation is undefined, and no matrix
    is returned. *)
Theorem period_count_edges (g : Bragg) (wavelength n1 n2 loss : R) :
  (-1 < _N g < 1 ->
   scattering_matrix g wavelength n1 n2 loss = Returns identity
   /\ scattering_coefficients g wavelength n1 n2 loss = Returns (0, 1))
  /\ (_N g <= -1 \/ IZR (SIZE_MAX + 1) <= _N g ->
      scattering_matrix g wavelength n1 n2 loss = Undefined
      /\ scattering_coefficients g wavelength n1 n2 loss = Undefined).
Proof.
  destruct (scattering_matrix_unfold g wavelength n1 n2 loss) as (Tp & _ & HS).
  split; intros HN.
  - assert (HS' : scattering_matrix g wavelength n1 n2 loss = Returns identity).
    { rewrite HS. unfold size_t_of_double. rewrite truncate_small by exact HN.
      reflexivity. }
    split; [exact HS'|].
    unfold scattering_coefficients. rewrite HS'; cbn [bind].
    apply scattering_coefficients_db_identity.
  - assert (HS' : scattering_matrix g wavelength n1 n2 loss = Undefined).
    { rewrite HS, size_t_of_double_out_of_range by exact HN. reflexivity. }
    split; [exact HS'|].
    unfold scattering_coefficients. now rewrite HS'.
Qed.

Lemma period_count_edges_witness :
  (scattering_matrix (mkBragg 1 (1 / 2) (- (1 / 2))) 1 3 2 0 = Returns identity
   /\ scattering_coefficients (mkBragg 1 (1 / 2) (- (1 / 2))) 1 3 2 0
      = Returns (0, 1))
  /\ (scattering_matrix (mkBragg 1 (1 / 2) (-3)) 1 3 2 0 = Undefined
      /\ scattering_coefficients (mkBragg 1 (1 / 2) (-3)) 1 3 2 0 = Undefined).
Proof.
  split.
  - apply (proj1 (period_count_edges (mkBragg 1 (1 / 2) (- (1 / 2))) 1 3 2 0)).
    cbn [_N]. lra.
  - apply (proj2 (period_count_edges (mkBragg 1 (1 / 2) (-3)) 1 3 2 0)).
    left. cbn [_N]. lra.
Defined.

(** ** More on the compact material model *)

(** X14. When a model holds both a constant and samples, the sample
    wins: the constant has no effect on the evaluation, and it is no
    fallback either when the index is beyond the samples. *)
Theorem cml_call_sample_overrides_constant
    (c : R) (samples : list R) (wl : option wavelength_model_t)
    (wd : option width_model_t) (l w : R) (i : nat) :
  cml_call (mkCml (Some c) (Some samples) wl wd) l w i
  = cml_call (mkCml None (Some samples) wl wd) l w i
  /\ ((i < length samples)%nat ->
      cml_call (mkCml (Some c) (Some samples) None None) l w i
      = Returns (nth i samples 0))
  /\ ((length samples <= i)%nat ->
      cml_call (mkCml (Some c) (Some samples) wl wd) l w i = Undefined).
Proof.
  split; [reflexivity|].
  unfold cml_call; cbn [constant sampled wavelength_model width_model bind].
  split; intros Hi.
  - now rewrite vector_index_in_range.
  - now rewrite vector_index_out_of_range.
Qed.

Lemma cml_call_sample_overrides_constant_witness :
  cml_call (mkCml (Some 9) (Some [3; 5; 7]) None None) 0 0 1 = Returns 5
  /\ cml_call (mkCml (Some 9) (Some [3; 5; 7]) None None) 0 0 3 = Undefined.
Proof.
  split.
  - apply (proj1 (proj2 (cml_call_sample_overrides_constant
                           9 [3; 5; 7] None None 0 0 1))).
    simpl; lia.
  - apply (proj2 (proj2 (cml_call_sample_overrides_constant
                           9 [3; 5; 7] None None 0 0 3))).
    simpl; lia.
Defined.

Lemma taylor_expansion_call_empty {O : reduction} (t : taylor_expansion O) (x : R) :
  coeffs t = [] -> taylor_expansion_call t x = Undefined.
Proof. intros He. unfold taylor_expansion_call. now rewrite He. Qed.

Lemma bind_Undefined {A B : Type} (c : outcome A) (k : A -> outcome B) :
  ~ throws c -> (forall a, k a = Undefined) -> bind c k = Undefined.
Proof.
  intros Hc Hk. destruct c as [a|e|]; cbn [bind]; [apply Hk| |reflexivity].
  exfalso. apply Hc. now exists e.
Qed.

Lemma taylor_expansion_call_not_throws {O : reduction} (t : taylor_expansion O) (x : R) :
  ~ throws (taylor_expansion_call t x).
Proof.
  unfold taylor_expansion_call.
  apply bind_not_throws; [apply vector_index_not_throws|auto with outcome].
Qed.

Lemma term_not_throws {O : reduction} (f : option (taylor_expansion O)) (x prop : R) :
  ~ throws (match f with
            | Some t => y <- taylor_expansion_call t x ;; Returns (prop + y)
            | None => Returns prop
            end).
Proof.
  destruct f as [t|]; [|auto with outcome].
  apply bind_not_throws; [apply taylor_expansion_call_not_throws|auto with outcome].
Qed.

Lemma cml_call_undefined (m : cml) (l w : R) (i : nat) :
  (exists t, wavelength_model m = Some t /\ coeffs t = [])
  \/ (exists t, width_model m = Some t /\ coeffs t = []) ->
  cml_call m l w i = Undefined.
Proof.
  intros Hempty. unfold cml_call.
  destruct m as [c s wl wd]; cbn [constant sampled wavelength_model width_model] in *.
  apply bind_Undefined; [destruct c; auto with outcome|]. intros p0.
  apply bind_Undefined.
  { destruct s; [apply vector_index_not_throws|auto with outcome]. }
  intros p1.
  destruct Hempty as [(t & -> & He)|(t & -> & He)].
  - now rewrite (taylor_expansion_call_empty t l He).
  - apply bind_Undefined; [apply term_not_throws|]. intros p2.
    now rewrite (taylor_expansion_call_empty t w He).
Qed.

(** X15. A dispersion model without coefficients cannot be evaluated:
    [coeffs[0]] is read unchecked, so the model alone, and every
    compact model whose wavelength or width term has an empty
    coefficient list, has undefined behaviour at every input; no error
    is raised. *)
Theorem cml_call_empty_coefficients (m : cml) (l w : R) (i : nat) :
  (exists t, wavelength_model m = Some t /\ coeffs t = [])
  \/ (exists t, width_model m = Some t /\ coeffs t = []) ->
  cml_call m l w i = Undefined
  /\ (forall (O : reduction) (x0 x : R),
        taylor_expansion_call (@mkTaylor O x0 []) x = Undefined).
Proof.
  intros Hempty. split; [now apply cml_call_undefined|].
  intros O x0 x. now apply taylor_expansion_call_empty.
Qed.

Lemma cml_call_empty_coefficients_witness :
  cml_call (mkCml (Some 2) None (Some (mkTaylor (155 / 100) [])) None) 1 0 0
  = Undefined.
Proof.
  apply (fun H => proj1 (cml_call_empty_coefficients
           (mkCml (Some 2) None (Some (mkTaylor (155 / 100) [])) None) 1 0 0 H)).
  left. exists (mkTaylor (155 / 100) []). split; reflexivity.
Defined.

Lemma taylor_sum_at_0 (cs : list R) (i : nat) :
  (0 < i)%nat -> taylor_sum 0 cs i = 0.
Proof.
  revert i. induction cs as [|c cs IH]; intros i Hi; cbn [taylor_sum].
  - reflexivity.
  - rewrite IH by lia. rewrite pow_i by exact Hi. ring.
Qed.

Lemma taylor_sum_zero_coefficients (dx : R) (cs : list R) (i : nat) :
  Forall (fun c => c = 0) cs -> taylor_sum dx cs i = 0.
Proof.
  intros Hz. revert i. induction Hz as [|c cs -> _ IH]; intros i; cbn [taylor_sum].
  - reflexivity.
  - rewrite IH. ring.
Qed.

Lemma reduce_0 (O : reduction) (y : R) : reduce O y 0 = y.
Proof. destruct O; simpl; ring. Qed.

(** X16. At its expansion point a dispersion model, of either kind,
    evaluates to its coefficient 0. *)
Theorem taylor_expansion_at_reference {O : reduction} (t : taylor_expansion O) :
  coeffs t <> [] ->
  taylor_expansion_call t (x0 t) = Returns (nth 0 (coeffs t) 0).
Proof.
  intros Hne. rewrite taylor_expansion_call_value by exact Hne.
  unfold taylor_value. rewrite Rminus_diag, taylor_sum_at_0 by lia.
  now rewrite reduce_0.
Qed.

Lemma taylor_expansion_at_reference_witness :
  taylor_expansion_call (@mkTaylor std_minus (155 / 100) [2; 3; 4]) (155 / 100)
  = Returns 2.
Proof.
  apply (@taylor_expansion_at_reference std_minus (mkTaylor (155 / 100) [2; 3; 4])).
  discriminate.
Defined.

(** X17. A dispersion model whose higher-order coefficients are all
    zero is constant: it evaluates to its coefficient 0 at every
    point. *)
Theorem taylor_expansion_constant {O : reduction} (t : taylor_expansion O) (x : R) :
  coeffs t <> [] ->
  Forall (fun c => c = 0) (skipn 1 (coeffs t)) ->
  taylor_expansion_call t x = Returns (nth 0 (coeffs t) 0).
Proof.
  intros Hne Hz. rewrite taylor_expansion_call_value by exact Hne.
  unfold taylor_value. rewrite taylor_sum_zero_coefficients by exact Hz.
  now rewrite reduce_0.
Qed.

Lemma taylor_expansion_constant_witness :
  taylor_expansion_call (@mkTaylor std_minus (155 / 100) [2; 0; 0]) 7 = Returns 2.
Proof.
  apply (@taylor_expansion_constant std_minus (mkTaylor (155 / 100) [2; 0; 0]) 7).
  - discriminate.
  - repeat constructor.
Defined.

(** X18. Evaluating a compact material model never raises an error,
    whatever the model and the inputs. *)
Theorem cml_call_never_throws (m : cml) (l w : R) (i : nat) :
  (forall e, cml_call m l w i <> Throws e)
  /\ (returns (cml_call m l w i) \/ cml_call m l w i = Undefined).
Proof.
  assert (Hnt : ~ throws (cml_call m l w i)).
  { unfold cml_call.
    apply bind_not_throws; [destruct (constant m); auto with outcome|]. intros p0.
    apply bind_not_throws.
    { destruct (sampled m); [apply vector_index_not_throws|auto with outcome]. }
    intros p1.
    apply bind_not_throws; [apply term_not_throws|]. intros p2.
    apply bind_not_throws; [apply term_not_throws|]. auto with outcome. }
  split.
  - intros e He. apply Hnt. now exists e.
  - destruct (cml_call m l w i) as [v|e|]; [left; now exists v| |now right].
    exfalso. apply Hnt. now exists e.
Qed.

Lemma taylor_sum_negate (dx : R) (cs : list R) (i : nat) :
  taylor_sum dx (map Ropp cs) i = - taylor_sum dx cs i.
Proof.
  revert i. induction cs as [|c cs IH]; intros i; cbn [map taylor_sum].
  - ring.
  - rewrite IH. ring.
Qed.

(** X19. The two kinds of dispersion model differ by the sign of the
    higher-order coefficients: a [std::minus] model evaluates as the
    [std::plus] model with the same expansion point, the same
    coefficient 0 and the other coefficients negated. *)
Theorem taylor_expansion_minus_plus (x0 : R) (cs : list R) (x : R) :
  taylor_expansion_call (@mkTaylor std_minus x0 cs) x
  = taylor_expansion_call (@mkTaylor std_plus x0 (negate_higher_order cs)) x.
Proof.
  destruct cs as [|c cs]; [reflexivity|].
  rewrite !taylor_expansion_call_value by discriminate.
  unfold taylor_value; cbn [coeffs negate_higher_order skipn nth reduce].
  rewrite taylor_sum_negate. f_equal; cbn; ring.
Qed.

(** X20. The formulas documented for the models.  A wavelength model
    with coefficients [a0, a1, a2] evaluates to
    [a0 - a1*(l - l0) - a2*(l - l0)^2], as its comment says.  A width
    model with coefficients [b0, b1, b2, b3] evaluates to
    [b0 + b1*(w - w0) + b2*(w - w0)^2 + b3*(w - w0)^3]: the documented
    formula, which has no [b0], is what it returns exactly when
    [b0 = 0]. *)
Theorem documented_model_formulas (l0 a0 a1 a2 l w0 b0 b1 b2 b3 w : R) :
  taylor_expansion_call (@mkTaylor std_minus l0 [a0; a1; a2]) l
  = Returns (a0 - a1 * (l - l0) - a2 * (l - l0) ^ 2)
  /\ taylor_expansion_call (@mkTaylor std_plus w0 [b0; b1; b2; b3]) w
     = Returns (b0 + (b1 * (w - w0) + b2 * (w - w0) ^ 2 + b3 * (w - w0) ^ 3))
  /\ (taylor_expansion_call (@mkTaylor std_plus w0 [b0; b1; b2; b3]) w
      = Returns (b1 * (w - w0) + b2 * (w - w0) ^ 2 + b3 * (w - w0) ^ 3)
      <-> b0 = 0).
Proof.
  assert (Hw : taylor_expansion_call (@mkTaylor std_plus w0 [b0; b1; b2; b3]) w
               = Returns (b0 + (b1 * (w - w0) + b2 * (w - w0) ^ 2
                                + b3 * (w - w0) ^ 3))).
  { unfold taylor_expansion_call; cbn. unfold std_pow. f_equal. ring. }
  split; [|split; [exact Hw|]].
  - unfold taylor_expansion_call; cbn. unfold std_pow. f_equal. ring.
  - rewrite Hw. split.
    + intros H. injection H as H. lra.
    + intros ->. f_equal. ring.
Qed.

(** ** Decibel conversions *)

Lemma ln_1e_15 : ln 1e-15 = - (15 * ln 10).
Proof.
  replace 1e-15 with (/ 10 ^ 15) by lra.
  rewrite ln_Rinv by (apply pow_lt; lra).
  rewrite ln_pow by lra. f_equal. f_equal. simpl. lra.
Qed.

Lemma ln_10_pos : 0 < ln 10.
Proof. rewrite <- ln_1. apply ln_increasing; lra. Qed.

(** X21. [to_db] clamps its argument at [1e-15]: every argument not
    above it, zero and negative ones included, gives -150 dB; no result
    is below -150 dB; the function is non-decreasing, and 1 gives 0 dB. *)
Theorem to_db_clamped (x y : R) :
  (x <= 1e-15 -> to_db x = Returns (-150))
  /\ (forall d, to_db x = Returns d -> -150 <= d)
  /\ (x <= y -> forall d e, to_db x = Returns d -> to_db y = Returns e -> d <= e)
  /\ to_db 1 = Returns 0.
Proof.
  pose proof ln_10_pos as H10. pose proof ln_1e_15 as H15.
  assert (Hfloor : 10 * std_log10 1e-15 = -150).
  { unfold std_log10. rewrite H15. field. lra. }
  assert (Hmono : forall a b, 1e-15 <= a -> a <= b ->
                              10 * std_log10 a <= 10 * std_log10 b).
  { intros a b Ha Hab. unfold std_log10.
    assert (ln a <= ln b).
    { destruct Hab as [Hlt| ->]; [left; apply ln_increasing; lra|right; reflexivity]. }
    assert (0 < / ln 10) by now apply Rinv_0_lt_compat.
    unfold Rdiv. nra. }
  repeat split.
  - intros Hx. unfold to_db. rewrite Rmax_right by exact Hx. now rewrite Hfloor.
  - intros d Hd. unfold to_db in Hd. injection Hd as <-.
    rewrite <- Hfloor. apply Hmono; [lra|apply Rmax_r].
  - intros Hxy d e Hd He. unfold to_db in Hd, He.
    injection Hd as <-. injection He as <-.
    apply Hmono; [apply Rmax_r|]. now apply Rle_max_compat_r.
  - unfold to_db. rewrite Rmax_left by lra.
    unfold std_log10. rewrite ln_1. f_equal. field. lra.
Qed.

Lemma to_db_clamped_witness :
  to_db 0 = Returns (-150)
  /\ (forall d e, to_db 0 = Returns d -> to_db (1 / 2) = Returns e -> d <= e).
Proof.
  split.
  - apply (proj1 (to_db_clamped 0 (1 / 2))). lra.
  - apply (proj1 (proj2 (proj2 (to_db_clamped 0 (1 / 2))))). lra.
Defined.

(** X22. [from_db] applied to [to_db x] is the natural logarithm of
    [x], for [x >= 1e-15], not [x] itself: it is the exponential of
    the result that gives [x] back. *)
Theorem from_db_to_db (x : R) :
  1e-15 <= x ->
  (d <- to_db x ;; from_db d) = Returns (ln x)
  /\ (forall a, (d <- to_db x ;; from_db d) = Returns a -> exp a = x).
Proof.
  intros Hx. pose proof ln_10_pos as H10.
  assert (Heq : (d <- to_db x ;; from_db d) = Returns (ln x)).
  { unfold to_db, from_db; cbn [bind]. rewrite Rmax_left by exact Hx.
    unfold std_log10. f_equal. field. lra. }
  split; [exact Heq|].
  intros a Ha. rewrite Heq in Ha. injection Ha as <-.
  apply exp_ln. lra.
Qed.

Lemma from_db_to_db_witness :
  (d <- to_db (1 / 2) ;; from_db d) = Returns (ln (1 / 2))
  /\ (forall a, (d <- to_db (1 / 2) ;; from_db d) = Returns a -> exp a = 1 / 2).
Proof. apply (from_db_to_db (1 / 2)). lra. Defined.

(** ** The options that build a material model *)

Lemma option_values_shape (slot : option cml) (v : list R) :
  slot_shape slot -> slot_shape (option_values slot v).
Proof.
  intros Hs. unfold option_values.
  destruct v as [|x [|y v]]; cbn [length Nat.eqb Nat.ltb Nat.leb].
  - exact Hs.
  - left. unfold base_only; cbn. repeat split. left. eauto.
  - left. unfold base_only; cbn. repeat split. right.
    eexists. repeat split. cbn [length]. lia.
Qed.

Lemma option_wavelength_model_shape (slot : option cml) (v : list R) :
  slot_shape slot -> slot_shape (option_wavelength_model slot v).
Proof.
  intros Hs. unfold option_wavelength_model.
  destruct v as [|x v]; cbn [length Nat.eqb negb]; [exact Hs|].
  destruct slot as [m|].
  - destruct (width_model m) as [wd|] eqn:Hwd.
    + right. destruct Hs as [(_ & Hno & _)|(Hc & Hsm & _)]; [congruence|].
      unfold models_only; cbn. repeat split; try assumption. left; discriminate.
    + right. unfold models_only; cbn. repeat split. left; discriminate.
  - right. unfold models_only; cbn. repeat split. left; discriminate.
Qed.

Lemma option_width_model_shape (slot : option cml) (v : list R) :
  slot_shape slot -> slot_shape (option_width_model slot v).
Proof.
  intros Hs. unfold option_width_model.
  destruct v as [|x v]; cbn [length Nat.eqb negb]; [exact Hs|].
  destruct slot as [m|].
  - destruct (wavelength_model m) as [wl|] eqn:Hwl.
    + right. destruct Hs as [(Hno & _)|(Hc & Hsm & _)]; [congruence|].
      unfold models_only; cbn. repeat split; try assumption. right; discriminate.
    + right. unfold models_only; cbn. repeat split. right; discriminate.
  - right. unfold models_only; cbn. repeat split. right; discriminate.
Qed.

Lemma option_loss_model_shape (slot : option cml) (v : list R) :
  slot_shape slot -> slot_shape (option_loss_model slot v).
Proof.
  intros Hs. unfold option_loss_model.
  destruct v as [|x v]; cbn [length Nat.eqb negb]; [exact Hs|].
  right. unfold models_only; cbn. repeat split. left; discriminate.
Qed.

Lemma apply_option_shape (slot : option cml) (o : material_option) :
  slot_shape slot -> slot_shape (apply_option slot o).
Proof.
  destruct o; cbn [apply_option];
    auto using option_values_shape, option_wavelength_model_shape,
               option_width_model_shape, option_loss_model_shape.
Qed.

Lemma fold_options_shape (opts : list material_option) :
  forall slot, slot_shape slot -> slot_shape (fold_left apply_option opts slot).
Proof.
  induction opts as [|o opts IH]; intros slot Hs; cbn [fold_left].
  - exact Hs.
  - apply IH. now apply apply_option_shape.
Qed.

Lemma run_options_shape (opts : list material_option) :
  slot_shape (run_options opts).
Proof. apply fold_options_shape. exact I. Qed.

(** X23. Whatever options are given, in whatever order, the model they
    leave in a material slot is either a base alone (a constant, or at
    least two samples) or dispersion terms alone: constant and samples
    are never both present, and a base is never combined with a
    dispersion term. *)
Theorem run_options_invariant (opts : list material_option) (m : cml) :
  run_options opts = Some m ->
  (base_only m \/ models_only m)
  /\ (constant m = None \/ sampled m = None)
  /\ (constant m <> None \/ sampled m <> None ->
      wavelength_model m = None /\ width_model m = None).
Proof.
  intros Hrun. pose proof (run_options_shape opts) as Hs.
  rewrite Hrun in Hs. cbn [slot_shape] in Hs.
  split; [exact Hs|]. split.
  - destruct Hs as [(_ & _ & [(c & _ & ->)|(v & -> & _)])|(-> & _)]; auto.
  - intros Hbase.
    destruct Hs as [(Hwl & Hwd & _)|(Hc & Hsm & _)]; [now split|].
    destruct Hbase; congruence.
Qed.

Lemma run_options_invariant_witness :
  (base_only (mkCml (Some 2) None None None)
   \/ models_only (mkCml (Some 2) None None None))
  /\ (constant (mkCml (Some 2) None None None) = None
      \/ sampled (mkCml (Some 2) None None None) = None)
  /\ (constant (mkCml (Some 2) None None None) <> None
      \/ sampled (mkCml (Some 2) None None None) <> None ->
      wavelength_model (mkCml (Some 2) None None None) = None
      /\ width_model (mkCml (Some 2) None None None) = None).
Proof.
  apply (run_options_invariant [WavelengthModel [1; 3; 4]; Values [2]]).
  unfold run_options; cbn [fold_left apply_option].
  unfold option_wavelength_model, option_values; cbn. reflexivity.
Defined.

(** X24. On a slot left by earlier options, a wavelength model and a
    width model may be given in either order: both end in the same
    model, which holds the two terms and nothing else. *)
Theorem model_options_commute (opts : list material_option) (v1 v2 : list R) :
  v1 <> [] -> v2 <> [] ->
  option_width_model (option_wavelength_model (run_options opts) v1) v2
  = option_wavelength_model (option_width_model (run_options opts) v2) v1
  /\ option_width_model (option_wavelength_model (run_options opts) v1) v2
     = Some (mkCml None None
               (Some (mkTaylor (nth 0 v1 0) (skipn 1 v1)))
               (Some (mkTaylor (nth 0 v2 0) (skipn 1 v2)))).
Proof.
  intros H1 H2. pose proof (run_options_shape opts) as Hs.
  destruct v1 as [|x1 v1]; [contradiction|].
  destruct v2 as [|x2 v2]; [contradiction|].
  assert (Hboth :
    forall slot, slot_shape slot ->
      option_width_model (option_wavelength_model slot (x1 :: v1)) (x2 :: v2)
      = Some (mkCml None None (Some (mkTaylor x1 v1)) (Some (mkTaylor x2 v2)))
      /\ option_wavelength_model (option_width_model slot (x2 :: v2)) (x1 :: v1)
         = Some (mkCml None None (Some (mkTaylor x1 v1)) (Some (mkTaylor x2 v2)))).
  { intros slot Hslot.
    unfold option_width_model, option_wavelength_model;
      cbn [length Nat.eqb negb nth skipn].
    destruct slot as [[c s wl wd]|]; cbn [slot_shape] in Hslot.
    - destruct Hslot as [(Hwl & Hwd & _)|(Hc & Hsm & _)];
        cbn [constant sampled wavelength_model width_model] in *; subst.
      + split; reflexivity.
      + destruct wl, wd; split; reflexivity.
    - split; reflexivity. }
  destruct (Hboth _ Hs) as [Ha Hb].
  split; [now rewrite Ha, Hb|exact Ha].
Qed.

Lemma model_options_commute_witness :
  option_width_model (option_wavelength_model (run_options [Values [2]]) [1; 3]) [5; 0; 7]
  = option_wavelength_model (option_width_model (run_options [Values [2]]) [5; 0; 7]) [1; 3]
  /\ option_width_model (option_wavelength_model (run_options [Values [2]]) [1; 3]) [5; 0; 7]
     = Some (mkCml None None
               (Some (mkTaylor (nth 0 [1; 3] 0) (skipn 1 [1; 3])))
               (Some (mkTaylor (nth 0 [5; 0; 7] 0) (skipn 1 [5; 0; 7])))).
Proof. apply (model_options_commute [Values [2]] [1; 3] [5; 0; 7]); discriminate. Defined.

(** X25. A model option given a single number, the expansion point
    without any coefficient, is accepted: it installs a model with an
    empty coefficient list, which has undefined behaviour at every
    evaluation. *)
Theorem single_number_model_option (slot : option cml) (x : R) :
  (exists m, option_wavelength_model slot [x] = Some m
             /\ forall l w i, cml_call m l w i = Undefined)
  /\ (exists m, option_width_model slot [x] = Some m
                /\ forall l w i, cml_call m l w i = Undefined)
  /\ (exists m, option_loss_model slot [x] = Some m
                /\ forall l w i, cml_call m l w i = Undefined).
Proof.
  unfold option_wavelength_model, option_width_model, option_loss_model;
    cbn [length Nat.eqb negb nth skipn].
  repeat split.
  - destruct slot as [m|]; [destruct (width_model m)|];
      eexists; (split; [reflexivity|]); intros l w i;
      apply cml_call_undefined; left; eexists; split; reflexivity.
  - destruct slot as [m|]; [destruct (wavelength_model m)|];
      eexists; (split; [reflexivity|]); intros l w i;
      apply cml_call_undefined; right; eexists; split; reflexivity.
  - eexists; split; [reflexivity|]. intros l w i.
    apply cml_call_undefined; left; eexists; split; reflexivity.
Qed.

(** ** [parse_numeric] *)

Section ParseNumericProperties.
Variable strtod : string -> strtod_value * nat.

(** A value that passes both comparisons is NaN or within the bounds. *)
Lemma bounds_check_passed (min max : option R) (val : strtod_value) :
  below_minimum min val = false -> above_maximum max val = false ->
  val = NaN \/ within_bounds min max val.
Proof.
  intros Hlo Hhi. destruct val as [x| | |]; cbn [within_bounds].
  - right. split.
    + intros lo ->. cbn [below_minimum value_lt] in Hlo.
      destruct (Rlt_dec x lo); [discriminate|lra].
    + intros hi ->. cbn [above_maximum value_gt] in Hhi.
      destruct (Rgt_dec x hi); [discriminate|lra].
  - right. destruct max; [discriminate|reflexivity].
  - right. destruct min; [discriminate|reflexivity].
  - now left.
Qed.

Lemma parse_loop_bounds (str current : string) (min max : option R)
    (result : list strtod_value) :
  forall l n,
    Forall (fun v => v = NaN \/ within_bounds min max v) result ->
    parse_loop strtod str current min max result = Parsed l n ->
    n = List.length l /\ Forall (fun v => v = NaN \/ within_bounds min max v) l.
Proof.
  funelim (parse_loop strtod str current min max result); intros l n Hres Hp.
  - injection Hp as <- <-. now split.
  - injection Hp as <- <-. now split.
  - clear Heqcall.
    destruct (below_minimum min_ val) eqn:Hlo; [discriminate|].
    destruct (above_maximum max_ val) eqn:Hhi; [discriminate|].
    match goal with
    | IH : forall l n, Forall _ _ -> _ = Parsed l n -> _ |- _ =>
        apply IH; [|exact Hp]
    end.
    apply Forall_app. split; [exact Hres|].
    constructor; [|constructor]. now apply bounds_check_passed.
Qed.

(** X26. The bounds check of [parse_numeric]: when the call returns,
    the returned size is the length of the vector and every value of
    the vector other than NaN is at or above the minimum, if one is
    given, and at or below the maximum, if one is given.  NaN is not
    checked: both comparisons are false on it, and a string that
    [strtod] converts whole to NaN gives the vector holding that NaN,
    whatever the bounds. *)
Theorem parse_numeric_bounds (str : string) (min max : option R) :
  (forall l n,
      parse_numeric strtod str min max = Parsed l n ->
      n = List.length l
      /\ Forall (fun v => v = NaN \/ within_bounds min max v) l)
  /\ (forall c rest k,
        str = String c rest ->
        strtod str = (NaN, S k) ->
        advance k rest = EmptyString ->
        parse_numeric strtod str min max = Parsed [NaN] 1).
Proof.
  split.
  - intros l n. unfold parse_numeric. apply parse_loop_bounds. constructor.
  - intros c rest k -> Hnan Hend. unfold parse_numeric.
    rewrite parse_loop_equation_2, Hnan.
    assert (Hlo : below_minimum min NaN = false) by (destruct min; reflexivity).
    assert (Hhi : above_maximum max NaN = false) by (destruct max; reflexivity).
    cbn. rewrite Hlo, Hhi, Hend.
    now rewrite parse_loop_equation_1.
Qed.

Lemma parse_loop_no_bounds (str current : string) (min max : option R)
    (result : list strtod_value) :
  min = None -> max = None ->
  exists l, parse_loop strtod str current min max result
            = Parsed l (List.length l).
Proof.
  funelim (parse_loop strtod str current min max result); intros Hmin Hmax.
  - now exists result.
  - now exists result.
  - subst. cbn [below_minimum above_maximum].
    match goal with IH : _ -> _ -> exists l, _ |- _ => apply IH; reflexivity end.
Qed.

(** X27. Without bounds [parse_numeric] never throws: whatever the
    string and whatever [strtod] makes of it, the call returns a vector
    and its length. *)
Theorem parse_numeric_no_bounds (str : string) :
  (exists l, parse_numeric strtod str None None = Parsed l (List.length l))
  /\ (forall what, parse_numeric strtod str None None <> RuntimeError what).
Proof.
  destruct (parse_loop_no_bounds str str None None [] eq_refl eq_refl) as [l Hl].
  unfold parse_numeric. rewrite Hl. split; [now exists l|discriminate].
Qed.

(** X28. [parse_numeric] stops without an error where nothing can be
    converted: an empty string, and a string at whose start [strtod]
    consumes nothing, give the empty vector and size 0, whatever the
    bounds. *)
Theorem parse_numeric_nothing_converted (str : string) (min max : option R) :
  str = EmptyString \/ snd (strtod str) = O ->
  parse_numeric strtod str min max = Parsed [] 0.
Proof.
  intros Hstop. unfold parse_numeric.
  destruct str as [|c rest]; [now rewrite parse_loop_equation_1|].
  destruct Hstop as [Hstop|Hstop]; [discriminate|].
  rewrite parse_loop_equation_2.
  destruct (strtod (String c rest)) as [val k]. cbn [snd] in Hstop. subst k.
  reflexivity.
Qed.

End ParseNumericProperties.

(** With a [strtod] that converts the digit 1 and the word [nan]: the
    values of [1,1] pass the bounds 0 and 1, and [nan] is stored
    although it lies within no bounds. *)
Lemma parse_numeric_bounds_witness :
  (2%nat = List.length [Finite 1; Finite 1]
   /\ Forall (fun v => v = NaN \/ within_bounds (Some 0) (Some 1) v)
        [Finite 1; Finite 1])
  /\ parse_numeric
       (fun s => match s with
                 | String "1"%char _ => (Finite 1, 1%nat)
                 | String "n"%char _ => (NaN, 3%nat)
                 | _ => (Finite 0, 0%nat)
                 end)
       "nan"%string (Some 0) (Some 1) = Parsed [NaN] 1.
Proof.
  split.
  - apply (proj1 (parse_numeric_bounds
                    (fun s => match s with
                              | String "1"%char _ => (Finite 1, 1%nat)
                              | String "n"%char _ => (NaN, 3%nat)
                              | _ => (Finite 0, 0%nat)
                              end)
                    "1,1"%string (Some 0) (Some 1)) [Finite 1; Finite 1] 2%nat).
    unfold parse_numeric.
    repeat (rewrite ?parse_loop_equation_1, ?parse_loop_equation_2; cbn).
    destruct (Rlt_dec 1 0); [exfalso; lra|].
    destruct (Rgt_dec 1 1); [exfalso; lra|].
    repeat (rewrite ?parse_loop_equation_1, ?parse_loop_equation_2; cbn).
    destruct (Rlt_dec 1 0); [exfalso; lra|].
    destruct (Rgt_dec 1 1); [exfalso; lra|].
    repeat (rewrite ?parse_loop_equation_1, ?parse_loop_equation_2; cbn).
    reflexivity.
  - apply (proj2 (parse_numeric_bounds
                    (fun s => match s with
                              | String "1"%char _ => (Finite 1, 1%nat)
                              | String "n"%char _ => (NaN, 3%nat)
                              | _ => (Finite 0, 0%nat)
                              end)
                    "nan"%string (Some 0) (Some 1))
             "n"%char "an"%string 2%nat); reflexivity.
Defined.

Lemma parse_numeric_nothing_converted_witness :
  parse_numeric (fun s => match s with
                          | String "1"%char _ => (Finite 1, 1%nat)
                          | _ => (Finite 0, 0%nat)
                          end)
    "abc"%string (Some 0) (Some 1) = Parsed [] 0.
Proof.
  apply (parse_numeric_nothing_converted
           (fun s => match s with
                     | String "1"%char _ => (Finite 1, 1%nat)
                     | _ => (Finite 0, 0%nat)
                     end)
           "abc"%string (Some 0) (Some 1)).
  right. reflexivity.
Defined.
